(** * TripChain: road-bump detection, path tracking and the socket relay

  A shallow embedding of the programs of the repository:

  - [AutoTune]  the auto-tuning React client (haversine speed derivation,
                capped path, speed brackets, red segments);
  - [Baseline]  the baseline React client (manual threshold and cooldown);
  - [Relay]     the socket.io server of [backend/index.js];
  - [Enhanced]  the jerk-based client that talks to that server.

  JavaScript numbers are read as real numbers ([R]), so rounding, NaN and
  infinities are outside the model; [Date.now()] timestamps, which are
  integral milliseconds, are read as [Z].  Arrays are lists whose head is
  index 0: the newest path point or bump record is the last element, as in
  the source.  React state is one record per component, every callback is
  a function from the state before to the state after, and what a callback
  sends on its socket is returned next to the new state. *)

From Stdlib Require Import Reals Lra Lia ZArith Bool String List.
Import ListNotations.

Local Open Scope R_scope.

(** ** JavaScript helpers *)

Module Js.

(** Comparisons of numbers, as booleans. *)
Definition gtb (a b : R) : bool := if Rgt_dec a b then true else false.
Definition geb (a b : R) : bool := if Rge_dec a b then true else false.
Definition ltb (a b : R) : bool := if Rlt_dec a b then true else false.
(** [a !== b] on numbers. *)
Definition neqb (a b : R) : bool := if Req_dec_T a b then false else true.

(** [v || 0] and [v ?? 0] on a number that may be missing. *)
Definition orZero (v : option R) : R :=
  match v with Some r => r | None => 0 end.

(** [arr[arr.length - 1]]: [undefined] on the empty array. *)
Definition lastOf {A : Type} (arr : list A) : option A :=
  nth_error arr (length arr - 1).

(** [arr.slice(-n)]: the last [n] elements, all of them when there are
    fewer. *)
Definition sliceLast {A : Type} (n : Z) (arr : list A) : list A :=
  skipn (Z.to_nat (Z.of_nat (length arr) - n)) arr.

(** [arr.splice(0, n)]: what is left of [arr] once its first [n]
    elements are removed. *)
Definition spliceHead {A : Type} (n : Z) (arr : list A) : list A :=
  skipn (Z.to_nat n) arr.

(** [arr.shift()]: what is left of [arr]. *)
Definition shift {A : Type} (arr : list A) : list A := tl arr.

(** An event sent with [socket.emit(name, data)]. *)
Definition Emit (A : Type) : Type := (string * A)%type.

(** [x.toFixed(digits)], as the number its string denotes: [x] rounded to
    [digits] decimals, a half going away from zero; from 1e21 on the string
    is that of [x] itself. *)
Definition toFixed (digits : nat) (x : R) : R :=
  let round y := IZR (Int_part (y * 10 ^ digits + / 2)) / 10 ^ digits in
  if geb (Rabs x) (10 ^ 21) then x
  else if ltb x 0 then - round (- x) else round x.

End Js.

(** ** Geometry *)

Module Geo.

(** A [[lat, lon]] pair. *)
Definition Point : Type := (R * R)%type.

(** [const toRad = (d) => (d * Math.PI) / 180] *)
Definition toRad (d : R) : R := (d * PI) / 180.

(** [haversineMeters(lat1, lon1, lat2, lon2)] *)
Definition haversineMeters (lat1 lon1 lat2 lon2 : R) : R :=
  let R := 6371000 in
  let dLat := toRad (lat2 - lat1) in
  let dLon := toRad (lon2 - lon1) in
  let a :=
    sin (dLat / 2) ^ 2 +
    cos (toRad lat1) * cos (toRad lat2) * sin (dLon / 2) ^ 2 in
  2 * R * asin (sqrt a).

(** Distance walked from the newest point of [pts] back to its oldest one:
    the sum, over consecutive points, of the haversine distance from the
    newer to the older, the argument order of the backtracking loop. *)
Fixpoint backLength (pts : list Point) : R :=
  match pts with
  | b :: ((a :: _) as rest) =>
      haversineMeters (fst a) (snd a) (fst b) (snd b) + backLength rest
  | _ => 0
  end.

(** The point [m] metres north of the equator on the prime meridian. *)
Definition metersNorth (m : R) : Point := (m * 180 / (6371000 * PI), 0).

End Geo.

(** ** The auto-tuning client *)

Module AutoTune.
Import Js Geo.

Record TuningParams : Type := mkParams { cooldown : Z; sensitivity : R }.

(** [getAutoParams(speedKmh)] *)
Definition getAutoParams (speedKmh : R) : TuningParams :=
  if ltb speedKmh 5 then mkParams 2500 10
  else if ltb speedKmh 25 then mkParams 1800 12
  else if ltb speedKmh 60 then mkParams 1200 14
  else mkParams 800 16.

Record Position : Type := mkPosition { lat : R; lon : R }.

(** [pos.coords]; [speed] is [None] when it is [null] or not a number. *)
Record Coords : Type :=
  mkCoords { latitude : R; longitude : R; speed : option R }.

(** [lastGeoRef.current] *)
Record GeoFix : Type := mkGeoFix { geo_lat : R; geo_lon : R; geo_t : Z }.

(** [accelerationIncludingGravity], whose axes may be missing. *)
Record Gravity : Type :=
  mkGravity { g_x : option R; g_y : option R; g_z : option R }.

Record Accel : Type :=
  mkAccel { acc_x : R; acc_y : R; acc_z : R; acc_linear : R }.

(** A bump record.  [id] is [String(now)], kept as [now]; [accel] is the
    string of [linear.toFixed(2)], kept as the number it denotes, and
    [speedKmh] is [Number(speedKmh.toFixed(1))]; the wall-clock [time] label
    is left out. *)
Record Bump : Type :=
  mkBump { bump_id : Z; bump_coords : Position;
           bump_accel : R; bump_speedKmh : R }.

Record State : Type := mkState {
  position : Position;
  speedKmh : R;
  accel : Accel;
  bumps : list Bump;
  detecting : bool;
  connected : bool;
  autoTune : bool;
  manualSensitivity : R;
  manualCooldownMs : Z;
  lastGeoRef : option GeoFix;
  lastBumpRef : Z;
  path : list Point;
  redSegments : list (list Point)
}.

Definition initial : State := {|
  position := mkPosition 28.6139 77.209;
  speedKmh := 0;
  accel := mkAccel 0 0 0 0;
  bumps := [];
  detecting := false;
  connected := false;
  autoTune := true;
  manualSensitivity := 12;
  manualCooldownMs := 2000;
  lastGeoRef := None;
  lastBumpRef := 0;
  path := [];
  redSegments := []
|}.

Definition effectiveCooldown (st : State) : Z :=
  if autoTune st then cooldown (getAutoParams (speedKmh st))
  else manualCooldownMs st.

Definition effectiveSensitivity (st : State) : R :=
  if autoTune st then sensitivity (getAutoParams (speedKmh st))
  else manualSensitivity st.

(** The updater handed to [setPath] in [handlePos]. *)
Definition setPathUpdater (next : Position) (prev : list Point)
  : list Point :=
  let last := lastOf prev in
  if match last with
     | None => true
     | Some l => neqb (fst l) (lat next) || neqb (snd l) (lon next)
     end
  then
    let updated := prev ++ [(lat next, lon next)] in
    if (Z.of_nat (length updated) >? 10000)%Z then shift updated
    else updated
  else prev.

(** The speed in m/s that [handlePos] settles on, if any: the native one
    when it is a non-negative number, else the derived one. *)
Definition spdMs (c : Coords) (now : Z) (lastGeo : option GeoFix)
  : option R :=
  let native :=
    match speed c with
    | Some s => if geb s 0 then Some s else None
    | None => None
    end in
  match native, lastGeo with
  | None, Some g =>
      let dt := IZR (now - geo_t g) / 1000 in
      if gtb dt 0.5 && ltb dt 15 then
        let d := haversineMeters (geo_lat g) (geo_lon g)
                                 (latitude c) (longitude c) in
        Some (d / dt)
      else None
  | _, _ => native
  end.

(** [handlePos(pos)], called at time [now].  Every real number is finite,
    so the [Number.isFinite] test is the test that a speed was found. *)
Definition handlePos (c : Coords) (now : Z) (st : State) : State :=
  let next := mkPosition (latitude c) (longitude c) in
  {| position := next;
     speedKmh :=
       match spdMs c now (lastGeoRef st) with
       | Some v => Rmax 0 (Rmin 180 (v * 3.6))
       | None => speedKmh st
       end;
     accel := accel st;
     bumps := bumps st;
     detecting := detecting st;
     connected := connected st;
     autoTune := autoTune st;
     manualSensitivity := manualSensitivity st;
     manualCooldownMs := manualCooldownMs st;
     lastGeoRef := Some (mkGeoFix (latitude c) (longitude c) now);
     lastBumpRef := lastBumpRef st;
     path := setPathUpdater next (path st);
     redSegments := redSegments st |}.

Definition MAX_BACK_METERS : R := 30.

(** The [for] loop of [addRedSegmentNear], entered with loop index [i]:
    it returns the final [seg] and [acc]. *)
Fixpoint backtrack (path : list Point) (i : nat) (seg : list Point)
  (acc : R) : list Point * R :=
  match i with
  | O => (seg, acc)
  | S j =>
      let a := nth (S j) path (0, 0) in
      let b := nth j path (0, 0) in
      let seg' := a :: seg in
      let acc' := acc + haversineMeters (fst a) (snd a) (fst b) (snd b) in
      if geb acc' MAX_BACK_METERS then (seg', acc')
      else backtrack path j seg' acc'
  end.

(** [addRedSegmentNear(centerLat, centerLon)]: the new [redSegments]. *)
Definition addRedSegmentNear (centerLat centerLon : R) (path : list Point)
  (redSegments : list (list Point)) : list (list Point) :=
  if (length path <? 2)%nat then redSegments
  else
    let seg :=
      fst (backtrack path (length path - 1) [(centerLat, centerLon)] 0) in
    if (2 <=? length seg)%nat then redSegments ++ [seg] else redSegments.

(** [linear] of the motion handler. *)
Definition linearOf (g : option Gravity) : Accel :=
  let g := match g with Some g => g | None => mkGravity None None None end in
  let x := orZero (g_x g) in
  let y := orZero (g_y g) in
  let z := orZero (g_z g) in
  let total := sqrt (x * x + y * y + z * z) in
  let linear := Rabs (total - 9.81) in
  mkAccel x y z linear.

Definition highThreshold (effectiveSensitivity : R) : R :=
  Rmax 16 (effectiveSensitivity + 3).

(** Whether the handler's [if] is taken for the metric [linear]. *)
Definition fires (linear : R) (now : Z) (st : State) : bool :=
  gtb linear (effectiveSensitivity st)
  && (now - lastBumpRef st >? effectiveCooldown st)%Z.

(** The part of the motion handler that follows [setAccel]. *)
Definition classify (linear : R) (now : Z) (st : State)
  : State * list (Emit Bump) :=
  if fires linear now st then
    let bump := mkBump now (position st) (toFixed 2 linear)
                       (toFixed 1 (speedKmh st)) in
    ({| position := position st;
        speedKmh := speedKmh st;
        accel := accel st;
        bumps := bump :: bumps st;
        detecting := detecting st;
        connected := connected st;
        autoTune := autoTune st;
        manualSensitivity := manualSensitivity st;
        manualCooldownMs := manualCooldownMs st;
        lastGeoRef := lastGeoRef st;
        lastBumpRef := now;
        path := path st;
        redSegments :=
          if geb linear (highThreshold (effectiveSensitivity st)) then
            addRedSegmentNear (lat (position st)) (lon (position st))
                              (path st) (redSegments st)
          else redSegments st |},
     [("send-bump"%string, bump)])
  else (st, []).

Definition setAccel (a : Accel) (st : State) : State :=
  {| position := position st; speedKmh := speedKmh st; accel := a;
     bumps := bumps st; detecting := detecting st;
     connected := connected st; autoTune := autoTune st;
     manualSensitivity := manualSensitivity st;
     manualCooldownMs := manualCooldownMs st;
     lastGeoRef := lastGeoRef st; lastBumpRef := lastBumpRef st;
     path := path st; redSegments := redSegments st |}.

(** [handler(event)], called at time [now]. *)
Definition handler (g : option Gravity) (now : Z) (st : State)
  : State * list (Emit Bump) :=
  let a := linearOf g in
  classify (acc_linear a) now (setAccel a st).

(** What can happen to the component. *)
Inductive Event : Type :=
| SocketEvent (name : string) (b : Bump)
| SocketConnect
| SocketDisconnect
| Pos (c : Coords) (now : Z)
| Motion (g : option Gravity) (now : Z)
| SetDetecting (on : bool)
| SetAutoTune (on : bool)
| SetManualSensitivity (v : R)
| SetManualCooldownMs (v : Z).

Definition withControls (d c t : bool) (s : R) (cd : Z) (bs : list Bump)
  (st : State) : State :=
  {| position := position st; speedKmh := speedKmh st; accel := accel st;
     bumps := bs; detecting := d; connected := c; autoTune := t;
     manualSensitivity := s; manualCooldownMs := cd;
     lastGeoRef := lastGeoRef st; lastBumpRef := lastBumpRef st;
     path := path st; redSegments := redSegments st |}.

(** One callback.  The socket listeners are those for ["connect"],
    ["disconnect"] and ["new-bump"]; the motion handler is registered only
    while [detecting]. *)
Definition step (e : Event) (st : State) : State * list (Emit Bump) :=
  let keep d c t s cd bs := (withControls d c t s cd bs st, []) in
  let d := detecting st in
  let c := connected st in
  let t := autoTune st in
  let s := manualSensitivity st in
  let cd := manualCooldownMs st in
  let bs := bumps st in
  match e with
  | SocketEvent name b =>
      if String.eqb name "new-bump" then keep d c t s cd (b :: bs)
      else (st, [])
  | SocketConnect => keep d true t s cd bs
  | SocketDisconnect => keep d false t s cd bs
  | Pos co now => (handlePos co now st, [])
  | Motion g now => if detecting st then handler g now st else (st, [])
  | SetDetecting on => keep on c t s cd bs
  | SetAutoTune on => keep d c on s cd bs
  | SetManualSensitivity v => keep d c t v cd bs
  | SetManualCooldownMs v => keep d c t s v bs
  end.

(** The component in manual mode, detecting, with the sliders at [s] and
    [cd]. *)
Definition manual (s : R) (cd : Z) : State :=
  withControls true false false s cd [] initial.

(** A motion event along one axis whose metric is [m], for [0 <= m]. *)
Definition axisSample (m : R) : option Gravity :=
  Some (mkGravity (Some (m + 9.81)) None None).

(** [st] is detecting in manual mode with the sliders at [s] and [cd],
    and the last bump fired at [last]. *)
Definition ManualAt (st : State) (s : R) (cd last : Z) : Prop :=
  detecting st = true /\ autoTune st = false /\
  manualSensitivity st = s /\ manualCooldownMs st = cd /\
  lastBumpRef st = last.

(** No two consecutive points of [pts] are the same. *)
Fixpoint noRepeat (pts : list Point) : Prop :=
  match pts with
  | a :: ((b :: _) as rest) => a <> b /\ noRepeat rest
  | _ => True
  end.

(** The path keeps its bound and has no repeated point. *)
Definition pathOk (st : State) : Prop :=
  (Z.of_nat (length (path st)) <= 10000)%Z /\ noRepeat (path st).

(** A session: the callbacks of [es] in order; the state at the end and
    everything sent. *)
Fixpoint run (es : list Event) (st : State) : State * list (Emit Bump) :=
  match es with
  | [] => (st, [])
  | e :: es' =>
      let (st1, out1) := step e st in
      let (st2, out2) := run es' st1 in
      (st2, out1 ++ out2)
  end.

End AutoTune.

(** ** The baseline client *)

Module Baseline.
Import Js.

Definition Position : Type := AutoTune.Position.
Definition Gravity : Type := AutoTune.Gravity.
Definition Accel : Type := AutoTune.Accel.

(** A bump record; [id] is [String(now)], kept as [now]; [accel] is the
    string of [linear.toFixed(2)], kept as the number it denotes; the
    wall-clock [time] label is left out. *)
Record Bump : Type :=
  mkBump { bump_id : Z; bump_coords : Position; bump_accel : R }.

Record State : Type := mkState {
  position : Position;
  bumps : list Bump;
  accel : Accel;
  detecting : bool;
  connected : bool;
  sensitivity : R;
  cooldownMs : Z;
  lastBumpRef : Z
}.

Definition initial : State := {|
  position := AutoTune.mkPosition 28.6139 77.209;
  bumps := [];
  accel := AutoTune.mkAccel 0 0 0 0;
  detecting := false;
  connected := false;
  sensitivity := 12;
  cooldownMs := 2000;
  lastBumpRef := 0
|}.

(** Whether the handler's [if] is taken for the metric [linear]. *)
Definition fires (linear : R) (now : Z) (st : State) : bool :=
  gtb linear (sensitivity st) && (now - lastBumpRef st >? cooldownMs st)%Z.

(** The part of the motion handler that follows [setAccel]. *)
Definition classify (linear : R) (now : Z) (st : State)
  : State * list (Emit Bump) :=
  if fires linear now st then
    let bump := mkBump now (position st) (toFixed 2 linear) in
    ({| position := position st;
        bumps := bump :: bumps st;
        accel := accel st;
        detecting := detecting st;
        connected := connected st;
        sensitivity := sensitivity st;
        cooldownMs := cooldownMs st;
        lastBumpRef := now |},
     [("send-bump"%string, bump)])
  else (st, []).

(** [handler(event)], called at time [now]. *)
Definition handler (g : option Gravity) (now : Z) (st : State)
  : State * list (Emit Bump) :=
  let g :=
    match g with
    | Some g => g
    | None => AutoTune.mkGravity None None None
    end in
  let x := orZero (AutoTune.g_x g) in
  let y := orZero (AutoTune.g_y g) in
  let z := orZero (AutoTune.g_z g) in
  let total := sqrt (x * x + y * y + z * z) in
  let linear := Rabs (total - 9.81) in
  classify linear now
    {| position := position st; bumps := bumps st;
       accel := AutoTune.mkAccel x y z linear;
       detecting := detecting st; connected := connected st;
       sensitivity := sensitivity st; cooldownMs := cooldownMs st;
       lastBumpRef := lastBumpRef st |}.

(** An event named [name] arrives on the socket; the listener that takes a
    record is the one for ["new-bump"]. *)
Definition socketEvent (name : string) (b : Bump) (st : State) : State :=
  if String.eqb name "new-bump" then
    {| position := position st; bumps := b :: bumps st; accel := accel st;
       detecting := detecting st; connected := connected st;
       sensitivity := sensitivity st; cooldownMs := cooldownMs st;
       lastBumpRef := lastBumpRef st |}
  else st.

(** What can happen to the component. *)
Inductive Event : Type :=
| SocketEvent (name : string) (b : Bump)
| SocketConnect
| SocketDisconnect
| Pos (latitude longitude : R)
| Motion (g : option Gravity) (now : Z)
| SetDetecting (on : bool)
| SetSensitivity (v : R)
| SetCooldownMs (v : Z).

(** One callback.  Both geolocation callbacks call [setPosition]; the
    motion handler is registered only while [detecting]. *)
Definition step (e : Event) (st : State) : State * list (Emit Bump) :=
  match e with
  | SocketEvent name b => (socketEvent name b st, [])
  | SocketConnect =>
      ({| position := position st; bumps := bumps st; accel := accel st;
          detecting := detecting st; connected := true;
          sensitivity := sensitivity st; cooldownMs := cooldownMs st;
          lastBumpRef := lastBumpRef st |}, [])
  | SocketDisconnect =>
      ({| position := position st; bumps := bumps st; accel := accel st;
          detecting := detecting st; connected := false;
          sensitivity := sensitivity st; cooldownMs := cooldownMs st;
          lastBumpRef := lastBumpRef st |}, [])
  | Pos latitude longitude =>
      ({| position := AutoTune.mkPosition latitude longitude;
          bumps := bumps st; accel := accel st;
          detecting := detecting st; connected := connected st;
          sensitivity := sensitivity st; cooldownMs := cooldownMs st;
          lastBumpRef := lastBumpRef st |}, [])
  | Motion g now => if detecting st then handler g now st else (st, [])
  | SetDetecting on =>
      ({| position := position st; bumps := bumps st; accel := accel st;
          detecting := on; connected := connected st;
          sensitivity := sensitivity st; cooldownMs := cooldownMs st;
          lastBumpRef := lastBumpRef st |}, [])
  | SetSensitivity v =>
      ({| position := position st; bumps := bumps st; accel := accel st;
          detecting := detecting st; connected := connected st;
          sensitivity := v; cooldownMs := cooldownMs st;
          lastBumpRef := lastBumpRef st |}, [])
  | SetCooldownMs v =>
      ({| position := position st; bumps := bumps st; accel := accel st;
          detecting := detecting st; connected := connected st;
          sensitivity := sensitivity st; cooldownMs := v;
          lastBumpRef := lastBumpRef st |}, [])
  end.

(** A session: the callbacks of [es] in order; the state at the end and
    everything sent. *)
Fixpoint run (es : list Event) (st : State) : State * list (Emit Bump) :=
  match es with
  | [] => (st, [])
  | e :: es' =>
      let (st1, out1) := step e st in
      let (st2, out2) := run es' st1 in
      (st2, out1 ++ out2)
  end.

(** Whether the callback moves a slider. *)
Definition movesSlider (e : Event) : bool :=
  match e with
  | SetSensitivity _ | SetCooldownMs _ => true
  | _ => false
  end.

(** The position shown after the callbacks [es], when it was [start]
    before: that of the last fix among them. *)
Fixpoint latestPosition (es : list Event) (start : Position) : Position :=
  match es with
  | [] => start
  | Pos latitude longitude :: es' =>
      latestPosition es' (AutoTune.mkPosition latitude longitude)
  | _ :: es' => latestPosition es' start
  end.

(** The component, detecting, with the sliders at [s] and [cd]. *)
Definition manual (s : R) (cd : Z) : State :=
  {| position := position initial; bumps := []; accel := accel initial;
     detecting := true; connected := false;
     sensitivity := s; cooldownMs := cd; lastBumpRef := 0 |}.

(** [st] is detecting with the sliders at [s] and [cd], and the last bump
    fired at [last]. *)
Definition ManualAt (st : State) (s : R) (cd last : Z) : Prop :=
  detecting st = true /\ sensitivity st = s /\ cooldownMs st = cd /\
  lastBumpRef st = last.

End Baseline.

(** ** The relay server *)

Module Relay.
Import Js.

Definition SocketId : Type := nat.

Section WithPayload.

(** What clients send.  The server reads nothing of it but
    [data.deviceId], which is [undefined] ([None]) when absent. *)
Variable Payload : Type.
Variable deviceId : Payload -> option string.

(** What the server sends: one record, or the array of ["heat:init"]. *)
Inductive Data : Type :=
| One (d : Payload)
| Many (ds : list Payload).

Record Delivery : Type :=
  mkDelivery { to : SocketId; event : string; data : Data }.

Record State : Type := mkState {
  bumps : list Payload;
  livePositions : list (option string * Payload);
  sockets : list SocketId
}.

Definition initial : State :=
  {| bumps := []; livePositions := []; sockets := [] |}.

Definition keyEqb (a b : option string) : bool :=
  match a, b with
  | Some x, Some y => String.eqb x y
  | None, None => true
  | _, _ => false
  end.

(** [map.set(k, v)]: the entry of [k] is replaced where it stands, a
    new key goes to the end. *)
Fixpoint mapSet (k : option string) (v : Payload)
  (m : list (option string * Payload)) : list (option string * Payload) :=
  match m with
  | [] => [(k, v)]
  | (k', v') :: m' =>
      if keyEqb k k' then (k, v) :: m' else (k', v') :: mapSet k v m'
  end.

(** [io.emit(name, d)]: to every connected socket. *)
Definition ioEmit (name : string) (d : Payload) (st : State)
  : list Delivery :=
  map (fun s => mkDelivery s name (One d)) (sockets st).

(** [socket.broadcast.emit(name, d)]: to every connected socket but
    [socket]. *)
Definition broadcastEmit (socket : SocketId) (name : string)
  (d : Payload) (st : State) : list Delivery :=
  map (fun s => mkDelivery s name (One d))
      (filter (fun s => negb (Nat.eqb s socket)) (sockets st)).

(** The body of [io.on("connection", ...)] for a new [socket]. *)
Definition connection (socket : SocketId) (st : State)
  : State * list Delivery :=
  ({| bumps := bumps st; livePositions := livePositions st;
      sockets := sockets st ++ [socket] |},
   [mkDelivery socket "heat:init" (Many (sliceLast 5000 (bumps st)))]).

(** The handler of ["pos"]. *)
Definition onPos (socket : SocketId) (d : Payload) (st : State)
  : State * list Delivery :=
  let st' := {| bumps := bumps st;
                livePositions := mapSet (deviceId d) d (livePositions st);
                sockets := sockets st |} in
  (st', broadcastEmit socket "pos" d st').

(** [bumps.push(b)] and the [splice] that bounds the array. *)
Definition pushBump (b : Payload) (bumps : list Payload) : list Payload :=
  let pushed := bumps ++ [b] in
  if (Z.of_nat (length pushed) >? 20000)%Z
  then spliceHead (Z.of_nat (length pushed) - 20000) pushed
  else pushed.

(** The handler of ["bump"]. *)
Definition onBump (socket : SocketId) (b : Payload) (st : State)
  : State * list Delivery :=
  let st' := {| bumps := pushBump b (bumps st);
                livePositions := livePositions st;
                sockets := sockets st |} in
  (st', ioEmit "bump" b st').

(** A message named [name] arrives from [socket]: the handler
    registered under that name runs, if there is one. *)
Definition receive (socket : SocketId) (name : string) (d : Payload)
  (st : State) : State * list Delivery :=
  if String.eqb name "pos" then onPos socket d st
  else if String.eqb name "bump" then onBump socket d st
  else (st, []).

(** [socket] goes away; the ["disconnect"] handler itself is empty. *)
Definition disconnect (socket : SocketId) (st : State) : State :=
  {| bumps := bumps st; livePositions := livePositions st;
     sockets := filter (fun s => negb (Nat.eqb s socket)) (sockets st) |}.

(** What can happen to the server. *)
Inductive Event : Type :=
| Connect (socket : SocketId)
| Message (socket : SocketId) (name : string) (d : Payload)
| Disconnect (socket : SocketId).

Definition step (e : Event) (st : State) : State * list Delivery :=
  match e with
  | Connect socket => connection socket st
  | Message socket name d => receive socket name d st
  | Disconnect socket => (disconnect socket st, [])
  end.

(** The events [es] in order: the state at the end and everything sent. *)
Fixpoint run (es : list Event) (st : State) : State * list Delivery :=
  match es with
  | [] => (st, [])
  | e :: es' =>
      let (st1, out1) := step e st in
      let (st2, out2) := run es' st1 in
      (st2, out1 ++ out2)
  end.

(** The bump publications among [es], oldest first. *)
Fixpoint published (es : list Event) : list Payload :=
  match es with
  | [] => []
  | Message _ name d :: es' =>
      if String.eqb name "bump" then d :: published es' else published es'
  | _ :: es' => published es'
  end.

End WithPayload.

Arguments One {Payload} d.
Arguments Many {Payload} ds.
Arguments mkDelivery {Payload} to event data.
Arguments to {Payload} d.
Arguments event {Payload} d.
Arguments data {Payload} d.
Arguments bumps {Payload} s.
Arguments livePositions {Payload} s.
Arguments sockets {Payload} s.
Arguments initial {Payload}.
Arguments connection {Payload} socket st.
Arguments pushBump {Payload} b bumps.
Arguments onBump {Payload} socket b st.
Arguments ioEmit {Payload} name d st.
Arguments broadcastEmit {Payload} socket name d st.
Arguments disconnect {Payload} socket st.
Arguments Connect {Payload} socket.
Arguments Message {Payload} socket name d.
Arguments Disconnect {Payload} socket.
Arguments step {Payload} deviceId e st.
Arguments run {Payload} deviceId es st.
Arguments published {Payload} es.
Arguments mapSet {Payload} k v m.
Arguments onPos {Payload} deviceId socket d st.
Arguments receive {Payload} deviceId socket name d st.

End Relay.

(** ** The jerk-based client *)

Module Enhanced.
Import Js.

Record Vec : Type := mkVec { ax : R; ay : R; az : R }.

(** The variable [prev] of the component. *)
Record Prev : Type := mkPrev { prev_ax : R; prev_ay : R; prev_az : R;
                               prev_t : R }.

(** [lastPosRef.current]; [lat] and [lng] are [null] before the first
    fix. *)
Record LastPos : Type :=
  mkLastPos { last_lat : option R; last_lng : option R;
              last_speed : R; last_ts : Z }.

(** What the client sends to the relay. *)
Inductive Msg : Type :=
| PosMsg (deviceId : string) (lat lng speed : R) (ts : Z)
| BumpMsg (deviceId : string) (lat lng score : R) (ts : Z).

Definition deviceIdOf (m : Msg) : option string :=
  match m with
  | PosMsg d _ _ _ _ => Some d
  | BumpMsg d _ _ _ _ => Some d
  end.

(** [cfg] *)
Definition hpAlpha : R := 0.8.
Definition jerkThresh : R := 3.0.
Definition minGapMs : Z := 1500.
Definition minSpeedMps : R := 2.0.

Record State : Type := mkState {
  deviceIdRef : string;
  recentAccel : Vec;
  hpState : Vec;
  lastBumpTs : Z;
  lastPosRef : LastPos;
  prev : Prev
}.

Definition initial (deviceId : string) : State := {|
  deviceIdRef := deviceId;
  recentAccel := mkVec 0 0 0;
  hpState := mkVec 0 0 0;
  lastBumpTs := 0;
  lastPosRef := mkLastPos None None 0 0;
  prev := mkPrev 0 0 0 0
|}.

(** The sample read off the event, missing axes being 0. *)
Definition sampleOf (g : option AutoTune.Gravity) : Vec :=
  match g with
  | Some g => mkVec (orZero (AutoTune.g_x g)) (orZero (AutoTune.g_y g))
                    (orZero (AutoTune.g_z g))
  | None => mkVec 0 0 0
  end.

(** The new [hpState.current] of [onMotion]. *)
Definition highPass (s : Vec) (st : State) : Vec :=
  let a := hpAlpha in
  mkVec (a * (ax (hpState st) + ax s - ax (recentAccel st)))
        (a * (ay (hpState st) + ay s - ay (recentAccel st)))
        (a * (az (hpState st) + az s - az (recentAccel st))).

(** [jx], [jy], [jz] of [onMotion], from the new filtered vector [hp]. *)
Definition jerk (hp : Vec) (t : R) (st : State) : Vec :=
  let dt := (t - prev_t (prev st)) / 1000 in
  mkVec (if gtb dt 0 then (ax hp - prev_ax (prev st)) / dt else 0)
        (if gtb dt 0 then (ay hp - prev_ay (prev st)) / dt else 0)
        (if gtb dt 0 then (az hp - prev_az (prev st)) / dt else 0).

(** [jerkMag] of [onMotion]. *)
Definition jerkMag (s : Vec) (t : R) (st : State) : R :=
  let j := jerk (highPass s st) t st in
  sqrt (ax j * ax j + ay j * ay j + az j * az j).

(** [onMotion(e)], called when [performance.now()] is [t] and
    [Date.now()] is [now]. *)
Definition onMotion (g : option AutoTune.Gravity) (t : R) (now : Z)
  (st : State) : State * list (Emit Msg) :=
  let s := sampleOf g in
  let hp := highPass s st in
  let mag := jerkMag s t st in
  let st1 := {| deviceIdRef := deviceIdRef st;
                recentAccel := s;
                hpState := hp;
                lastBumpTs := lastBumpTs st;
                lastPosRef := lastPosRef st;
                prev := mkPrev (ax hp) (ay hp) (az hp) t |} in
  let last := lastPosRef st in
  match last_lat last with
  | None => (st1, [])
  | Some lat =>
      if ltb (last_speed last) minSpeedMps then (st1, [])
      else if (now - lastBumpTs st <? minGapMs)%Z then (st1, [])
      else if gtb mag jerkThresh then
        let score := Rmin 5 ((mag - jerkThresh) * 0.8 + 1) in
        let bump := BumpMsg (deviceIdRef st) lat
                            (orZero (last_lng last)) score now in
        ({| deviceIdRef := deviceIdRef st;
            recentAccel := s;
            hpState := hp;
            lastBumpTs := now;
            lastPosRef := lastPosRef st;
            prev := mkPrev (ax hp) (ay hp) (az hp) t |},
         [("bump"%string, bump)])
      else (st1, [])
  end.

End Enhanced.

(** ** Sessions of the auto-tuning client: permission, start and stop *)

Module AutoTuneSession.
Import Js Geo AutoTune.

(** What [window.DeviceMotionEvent.requestPermission] is: absent, a call
    that answers [res], or a call that throws. *)
Inductive MotionApi : Type :=
| NoRequestPermission
| Answers (res : string)
| Throws.

(** [requestMotionPermission()] *)
Definition requestMotionPermission (api : MotionApi) : bool :=
  match api with
  | NoRequestPermission => true
  | Answers res => String.eqb res "granted"
  | Throws => false
  end.

(** [startDetection()] *)
Definition startDetection (api : MotionApi) (st : State) : State :=
  if requestMotionPermission api then fst (step (SetDetecting true) st)
  else st.

(** [stopDetection()] *)
Definition stopDetection (st : State) : State :=
  fst (step (SetDetecting false) st).

(** Whether the callback switches detection on. *)
Definition startsDetection (e : Event) : bool :=
  match e with
  | SetDetecting on => on
  | _ => false
  end.

(** The position shown after the callbacks [es], when it was [start]
    before: that of the last fix among them. *)
Fixpoint latestPosition (es : list Event) (start : Position) : Position :=
  match es with
  | [] => start
  | Pos c _ :: es' =>
      latestPosition es' (mkPosition (latitude c) (longitude c))
  | _ :: es' => latestPosition es' start
  end.

(** The newest path point, when there is one, is the position shown. *)
Definition coherent (st : State) : Prop :=
  path st = [] \/
  lastOf (path st) = Some (lat (position st), lon (position st)).

(** The segment ends with the same point twice. *)
Definition endsDoubled (seg : list Point) : Prop :=
  exists pts p, seg = pts ++ [p; p].

End AutoTuneSession.

(** ** Spacing of timestamps *)

Module Timing.

(** Each time of [times] is more than [gap] after the one before it, the
    first one more than [gap] after [last]. *)
Fixpoint spacedOver (gap last : Z) (times : list Z) : Prop :=
  match times with
  | [] => True
  | t :: rest => (t - last > gap)%Z /\ spacedOver gap t rest
  end.

(** Each time of [times] is at least [gap] after the one before it, the
    first one at least [gap] after [last]. *)
Fixpoint spacedFrom (gap last : Z) (times : list Z) : Prop :=
  match times with
  | [] => True
  | t :: rest => (t - last >= gap)%Z /\ spacedFrom gap t rest
  end.

End Timing.

(** ** The jerk-based client: map, GPS and socket listeners *)

Module EnhancedApp.
Import Js Enhanced.

(** [L.circle([lat, lng], {radius, fillOpacity})] *)
Record Circle : Type :=
  mkCircle { circle_lat : R; circle_lng : R;
             circle_radius : R; circle_opacity : R }.

(** [pos.coords]; [accuracy] and [speed] may be missing. *)
Record Coords : Type :=
  mkCoords { latitude : R; longitude : R;
             accuracy : option R; speed : option R }.

(** The component: the refs of [Enhanced.State], the polyline of
    [pathRef], the view set on the first fix, the user marker with its
    accuracy circle, and the circles of the heat layer in the order they
    were added. *)
Record App : Type := mkApp {
  core : State;
  pathLine : list (R * R);
  view : option (R * R);
  userMarker : option (R * R);
  accuracyCircle : option Circle;
  heat : list Circle
}.

Definition initial (deviceId : string) : App := {|
  core := Enhanced.initial deviceId;
  pathLine := [];
  view := None;
  userMarker := None;
  accuracyCircle := None;
  heat := []
|}.

(** The circle of [addHeatDot(b)]. *)
Definition heatDot (lat lng score : R) : Circle :=
  let size := 40 + Rmin 60 (score * 10) in
  let opacity := Rmax 0.25 (Rmin 0.6 (score / 3)) in
  mkCircle lat lng size opacity.

(** [addHeatDot(b)] on the heat layer.  A record without a score has no
    radius that is a number; it is left undrawn here. *)
Definition addHeatDot (b : Msg) (heat : list Circle) : list Circle :=
  match b with
  | BumpMsg _ lat lng score _ => heat ++ [heatDot lat lng score]
  | PosMsg _ _ _ _ _ => heat
  end.

(** Whether [accuracy] is truthy: a number other than 0. *)
Definition truthy (accuracy : option R) : bool :=
  match accuracy with
  | Some a => neqb a 0
  | None => false
  end.

(** The radius of the accuracy circle: [Math.min(Math.max(a, 5), 100)]. *)
Definition clampRadius (a : R) : R := Rmin (Rmax a 5) 100.

(** [updateUserMarker(lat, lng, accuracy)]: the marker and the accuracy
    circle after the call.  The opacity of that circle is always 0.15. *)
Definition updateUserMarker (lat lng : R) (accuracy : option R) (app : App)
  : option (R * R) * option Circle :=
  match userMarker app with
  | None =>
      (Some (lat, lng),
       Some (mkCircle lat lng (clampRadius (orZero accuracy)) 0.15))
  | Some _ =>
      (Some (lat, lng),
       match accuracyCircle app with
       | Some c =>
           Some (mkCircle lat lng
                   (if truthy accuracy then clampRadius (orZero accuracy)
                    else circle_radius c)
                   (circle_opacity c))
       | None => None
       end)
  end.

(** The callback of [watchPosition] in [startGPS], called when
    [Date.now()] is [ts]. *)
Definition onPosition (c : Coords) (ts : Z) (app : App)
  : App * list (Emit Msg) :=
  let lat := latitude c in
  let lng := longitude c in
  let line := pathLine app ++ [(lat, lng)] in
  let marker := updateUserMarker lat lng (accuracy c) app in
  let st := core app in
  ({| core := {| deviceIdRef := deviceIdRef st;
                 recentAccel := recentAccel st;
                 hpState := hpState st;
                 lastBumpTs := lastBumpTs st;
                 lastPosRef :=
                   mkLastPos (Some lat) (Some lng) (orZero (speed c)) ts;
                 prev := prev st |};
      pathLine := line;
      view := if Nat.eqb (length line) 1 then Some (lat, lng) else view app;
      userMarker := fst marker;
      accuracyCircle := snd marker;
      heat := heat app |},
   [("pos"%string,
     PosMsg (deviceIdRef st) lat lng (orZero (speed c)) ts)]).

(** [onMotion(e)] with the heat dot it draws for the bump it sends. *)
Definition onMotion (g : option AutoTune.Gravity) (t : R) (now : Z)
  (app : App) : App * list (Emit Msg) :=
  let (st, out) := Enhanced.onMotion g t now (core app) in
  ({| core := st;
      pathLine := pathLine app;
      view := view app;
      userMarker := userMarker app;
      accuracyCircle := accuracyCircle app;
      heat := fold_left (fun h e => addHeatDot (snd e) h) out (heat app) |},
   out).

Definition withHeat (h : list Circle) (app : App) : App :=
  {| core := core app; pathLine := pathLine app; view := view app;
     userMarker := userMarker app; accuracyCircle := accuracyCircle app;
     heat := h |}.

(** The socket listeners: [drawRemote] for ["pos"], which does nothing,
    [addHeatDot] for ["bump"], and [addHeatDot] on every record for
    ["heat:init"]. *)
Definition onSocket (event : string) (data : Relay.Data Msg) (app : App)
  : App :=
  if String.eqb event "bump" then
    match data with
    | Relay.One b => withHeat (addHeatDot b (heat app)) app
    | Relay.Many _ => app
    end
  else if String.eqb event "heat:init" then
    match data with
    | Relay.Many pts =>
        withHeat (fold_left (fun h b => addHeatDot b h) pts (heat app)) app
    | Relay.One _ => app
    end
  else app.

(** The client connected as [socket] takes what the server delivers to
    it. *)
Definition deliver (socket : Relay.SocketId)
  (ds : list (Relay.Delivery Msg)) (app : App) : App :=
  fold_left
    (fun a d =>
       if Nat.eqb (Relay.to d) socket
       then onSocket (Relay.event d) (Relay.data d) a
       else a)
    ds app.

(** What can happen to the component. *)
Inductive Event : Type :=
| Gps (c : Coords) (ts : Z)
| Motion (g : option AutoTune.Gravity) (t : R) (now : Z)
| Socket (event : string) (data : Relay.Data Msg).

Definition step (e : Event) (app : App) : App * list (Emit Msg) :=
  match e with
  | Gps c ts => onPosition c ts app
  | Motion g t now => onMotion g t now app
  | Socket event data => (onSocket event data app, [])
  end.

(** A session: the callbacks of [es] in order; the component at the end
    and everything sent. *)
Fixpoint run (es : list Event) (app : App) : App * list (Emit Msg) :=
  match es with
  | [] => (app, [])
  | e :: es' =>
      let (app1, out1) := step e app in
      let (app2, out2) := run es' app1 in
      (app2, out1 ++ out2)
  end.

(** The timestamps of the bumps among what was sent. *)
Fixpoint bumpTimes (out : list (Emit Msg)) : list Z :=
  match out with
  | [] => []
  | (_, BumpMsg _ _ _ _ ts) :: rest => ts :: bumpTimes rest
  | _ :: rest => bumpTimes rest
  end.

(** The fix reports less than [minSpeedMps], or no speed at all. *)
Definition slowFix (e : Event) : Prop :=
  match e with
  | Gps c _ => orZero (speed c) < minSpeedMps
  | _ => True
  end.

(** The coordinates of the fixes among [es], in order. *)
Fixpoint fixes (es : list Event) : list (R * R) :=
  match es with
  | [] => []
  | Gps c _ :: es' => (latitude c, longitude c) :: fixes es'
  | _ :: es' => fixes es'
  end.

(** The marker and its accuracy circle go together, and the circle has a
    radius between 5 and 100 and the opacity 0.15. *)
Definition markerOk (app : App) : Prop :=
  (userMarker app = None /\ accuracyCircle app = None) \/
  (exists lat lng r,
     userMarker app = Some (lat, lng) /\
     accuracyCircle app = Some (mkCircle lat lng r 0.15) /\
     5 <= r <= 100).

End EnhancedApp.

(** * Properties *)

(** ** Comparisons and array helpers *)

Section JsFacts.
Import Js.

Lemma gtb_true a b : gtb a b = true <-> a > b.
Proof. unfold gtb; destruct (Rgt_dec a b); split; (easy || lra). Qed.

Lemma gtb_false a b : gtb a b = false <-> a <= b.
Proof. unfold gtb; destruct (Rgt_dec a b); split; (easy || lra). Qed.

Lemma geb_true a b : geb a b = true <-> a >= b.
Proof. unfold geb; destruct (Rge_dec a b); split; (easy || lra). Qed.

Lemma geb_false a b : geb a b = false <-> a < b.
Proof. unfold geb; destruct (Rge_dec a b); split; (easy || lra). Qed.

Lemma ltb_true a b : ltb a b = true <-> a < b.
Proof. unfold ltb; destruct (Rlt_dec a b); split; (easy || lra). Qed.

Lemma ltb_false a b : ltb a b = false <-> b <= a.
Proof. unfold ltb; destruct (Rlt_dec a b); split; (easy || lra). Qed.

Lemma neqb_false a b : neqb a b = false <-> a = b.
Proof. unfold neqb; destruct (Req_dec_T a b); split; easy. Qed.

Lemma neqb_true a b : neqb a b = true <-> a <> b.
Proof. unfold neqb; destruct (Req_dec_T a b); split; easy. Qed.

Lemma lastOf_snoc {A} (l : list A) (x : A) : lastOf (l ++ [x]) = Some x.
Proof.
  unfold lastOf. rewrite length_app; simpl.
  replace (length l + 1 - 1)%nat with (length l) by lia.
  rewrite nth_error_app2 by lia. now rewrite Nat.sub_diag.
Qed.

Lemma lastOf_nil {A} : @lastOf A [] = None.
Proof. reflexivity. Qed.

Lemma lastOf_cons {A} (x y : A) (l : list A) :
  lastOf (x :: y :: l) = lastOf (y :: l).
Proof. unfold lastOf; simpl. now rewrite Nat.sub_0_r. Qed.

End JsFacts.

(** Decides a comparison of two concrete numbers. *)
Ltac js_cmp :=
repeat match goal with
  | |- context [Js.gtb ?a ?b] =>
      first [ replace (Js.gtb a b) with true
                by (symmetry; apply gtb_true; lra)
            | replace (Js.gtb a b) with false
                by (symmetry; apply gtb_false; lra) ]
  | |- context [Js.geb ?a ?b] =>
      first [ replace (Js.geb a b) with true
                by (symmetry; apply geb_true; lra)
            | replace (Js.geb a b) with false
                by (symmetry; apply geb_false; lra) ]
  | |- context [Js.ltb ?a ?b] =>
      first [ replace (Js.ltb a b) with true
                by (symmetry; apply ltb_true; lra)
            | replace (Js.ltb a b) with false
                by (symmetry; apply ltb_false; lra) ]
  end.

(** ** The auto-tuner *)

Section AutoParams.
Import AutoTune.

Lemma getAutoParams_lt5 s : s < 5 -> getAutoParams s = mkParams 2500 10.
Proof. intros; unfold getAutoParams; now js_cmp. Qed.

Lemma getAutoParams_lt25 s :
  5 <= s < 25 -> getAutoParams s = mkParams 1800 12.
Proof. intros; unfold getAutoParams; now js_cmp. Qed.

Lemma getAutoParams_lt60 s :
  25 <= s < 60 -> getAutoParams s = mkParams 1200 14.
Proof. intros; unfold getAutoParams; now js_cmp. Qed.

Lemma getAutoParams_ge60 s : 60 <= s -> getAutoParams s = mkParams 800 16.
Proof. intros; unfold getAutoParams; now js_cmp. Qed.

Lemma getAutoParams_cases s :
  (s < 5 /\ getAutoParams s = mkParams 2500 10) \/
  (5 <= s < 25 /\ getAutoParams s = mkParams 1800 12) \/
  (25 <= s < 60 /\ getAutoParams s = mkParams 1200 14) \/
  (60 <= s /\ getAutoParams s = mkParams 800 16).
Proof.
  destruct (Rlt_dec s 5); [left; auto using getAutoParams_lt5 |].
  destruct (Rlt_dec s 25);
    [right; left; split; [lra | apply getAutoParams_lt25; lra] |].
  destruct (Rlt_dec s 60);
    [right; right; left; split; [lra | apply getAutoParams_lt60; lra] |].
  right; right; right; split; [lra | apply getAutoParams_ge60; lra].
Qed.

(** C3.  [getAutoParams] returns exactly the four-bracket table: below 5
    km/h (2500 ms, 10), from 5 and below 25 (1800, 12), from 25 and below
    60 (1200, 14), from 60 on (800, 16).  Hence for speeds [s1 <= s2] the
    sensitivity does not decrease and the cooldown does not increase.  At
    4, 5, 24.9 and 60 km/h it returns (2500,10), (1800,12), (1800,12) and
    (800,16). *)
Theorem getAutoParams_table_monotone (s1 s2 : R) :
  s1 <= s2 ->
  ((s1 < 5 /\ getAutoParams s1 = mkParams 2500 10) \/
   (5 <= s1 < 25 /\ getAutoParams s1 = mkParams 1800 12) \/
   (25 <= s1 < 60 /\ getAutoParams s1 = mkParams 1200 14) \/
   (60 <= s1 /\ getAutoParams s1 = mkParams 800 16)) /\
  sensitivity (getAutoParams s1) <= sensitivity (getAutoParams s2) /\
  (cooldown (getAutoParams s2) <= cooldown (getAutoParams s1))%Z /\
  getAutoParams 4 = mkParams 2500 10 /\
  getAutoParams 5 = mkParams 1800 12 /\
  getAutoParams 24.9 = mkParams 1800 12 /\
  getAutoParams 60 = mkParams 800 16.
Proof.
  intros Hle. split; [apply getAutoParams_cases |].
  split; [| split].
  - destruct (getAutoParams_cases s1) as [[? ->]|[[? ->]|[[? ->]|[? ->]]]];
      destruct (getAutoParams_cases s2) as [[? ->]|[[? ->]|[[? ->]|[? ->]]]];
      simpl; lra.
  - destruct (getAutoParams_cases s1) as [[? ->]|[[? ->]|[[? ->]|[? ->]]]];
      destruct (getAutoParams_cases s2) as [[? ->]|[[? ->]|[[? ->]|[? ->]]]];
      simpl; first [lia | lra].
  - repeat split.
    + apply getAutoParams_lt5; lra.
    + apply getAutoParams_lt25; lra.
    + apply getAutoParams_lt25; lra.
    + apply getAutoParams_ge60; lra.
Qed.

Lemma getAutoParams_table_monotone_witness :
  4 <= 60 /\
  sensitivity (getAutoParams 4) <= sensitivity (getAutoParams 60) /\
  (cooldown (getAutoParams 60) <= cooldown (getAutoParams 4))%Z.
Proof.
  assert (H : 4 <= 60) by lra.
  split; [exact H |].
  destruct (getAutoParams_table_monotone 4 60 H) as (_ & Hs & Hc & _).
  split; [exact Hs | exact Hc].
Defined.

End AutoParams.

(** ** The bump classifier *)

Section Classifier.
Import Js.

Lemma sqrt_axis (x : R) : 0 <= x -> sqrt (x * x + 0 * 0 + 0 * 0) = x.
Proof.
  intros Hx. replace (x * x + 0 * 0 + 0 * 0) with (x * x) by ring.
  now apply sqrt_square.
Qed.

Lemma linear_axis (m : R) :
  0 <= m -> Rabs (sqrt ((m + 9.81) * (m + 9.81) + 0 * 0 + 0 * 0) - 9.81) = m.
Proof.
  intros Hm. rewrite sqrt_axis by lra.
  replace (m + 9.81 - 9.81) with m by ring. now apply Rabs_pos_eq.
Qed.

Lemma AutoTune_fires_iff linear now st :
  AutoTune.fires linear now st = true <->
  linear > AutoTune.effectiveSensitivity st /\
  (now - AutoTune.lastBumpRef st > AutoTune.effectiveCooldown st)%Z.
Proof.
  unfold AutoTune.fires. rewrite andb_true_iff, gtb_true, Z.gtb_gt.
  split; intros [? ?]; split; (assumption || lia).
Qed.

Lemma Baseline_fires_iff linear now st :
  Baseline.fires linear now st = true <->
  linear > Baseline.sensitivity st /\
  (now - Baseline.lastBumpRef st > Baseline.cooldownMs st)%Z.
Proof.
  unfold Baseline.fires. rewrite andb_true_iff, gtb_true, Z.gtb_gt.
  split; intros [? ?]; split; (assumption || lia).
Qed.

Lemma AutoTune_classify_sends linear now st :
  (exists b, snd (AutoTune.classify linear now st) = [("send-bump"%string, b)])
  <-> AutoTune.fires linear now st = true.
Proof.
  unfold AutoTune.classify.
  destruct (AutoTune.fires linear now st); simpl; split.
  - reflexivity.
  - intros _. eexists; reflexivity.
  - intros [b Hb]; discriminate.
  - discriminate.
Qed.

Lemma Baseline_classify_sends linear now st :
  (exists b, snd (Baseline.classify linear now st) = [("send-bump"%string, b)])
  <-> Baseline.fires linear now st = true.
Proof.
  unfold Baseline.classify.
  destruct (Baseline.fires linear now st); simpl; split.
  - reflexivity.
  - intros _. eexists; reflexivity.
  - intros [b Hb]; discriminate.
  - discriminate.
Qed.

Lemma AutoTune_handler_axis m now st :
  0 <= m ->
  AutoTune.handler (AutoTune.axisSample m) now st =
  AutoTune.classify m now
    (AutoTune.setAccel (AutoTune.mkAccel (m + 9.81) 0 0 m) st).
Proof.
  intros Hm. unfold AutoTune.handler, AutoTune.linearOf, AutoTune.axisSample.
  cbn [AutoTune.g_x AutoTune.g_y AutoTune.g_z orZero AutoTune.acc_linear].
  now rewrite linear_axis.
Qed.

End Classifier.

Section ClassifierRuns.
Import Js.

Lemma AutoTune_manual_fire st s cd last m now :
  AutoTune.ManualAt st s cd last -> 0 <= m ->
  m > s -> (now - last > cd)%Z ->
  exists st' b,
    AutoTune.step (AutoTune.Motion (AutoTune.axisSample m) now) st
    = (st', [("send-bump"%string, b)]) /\
    AutoTune.bump_id b = now /\ AutoTune.ManualAt st' s cd now.
Proof.
  intros (Hd & Ha & Hs & Hc & Hl) Hm Hgt Hel.
  unfold AutoTune.step. rewrite Hd, AutoTune_handler_axis by assumption.
  unfold AutoTune.classify.
  replace (AutoTune.fires m now _) with true.
  - do 2 eexists. split; [reflexivity |]. split; [reflexivity |].
    repeat split; assumption.
  - symmetry. apply AutoTune_fires_iff.
    unfold AutoTune.effectiveSensitivity, AutoTune.effectiveCooldown.
    cbn [AutoTune.setAccel AutoTune.autoTune AutoTune.manualSensitivity
         AutoTune.manualCooldownMs AutoTune.lastBumpRef].
    rewrite Ha, Hs, Hc, Hl. split; [lra | lia].
Qed.

Lemma AutoTune_manual_quiet st s cd last m now :
  AutoTune.ManualAt st s cd last -> 0 <= m ->
  m <= s \/ (now - last <= cd)%Z ->
  exists st',
    AutoTune.step (AutoTune.Motion (AutoTune.axisSample m) now) st
    = (st', []) /\ AutoTune.ManualAt st' s cd last.
Proof.
  intros (Hd & Ha & Hs & Hc & Hl) Hm Hno.
  unfold AutoTune.step. rewrite Hd, AutoTune_handler_axis by assumption.
  unfold AutoTune.classify.
  replace (AutoTune.fires m now _) with false.
  - eexists. split; [reflexivity |]. repeat split; assumption.
  - symmetry. apply not_true_is_false. rewrite AutoTune_fires_iff.
    unfold AutoTune.effectiveSensitivity, AutoTune.effectiveCooldown.
    cbn [AutoTune.setAccel AutoTune.autoTune AutoTune.manualSensitivity
         AutoTune.manualCooldownMs AutoTune.lastBumpRef].
    rewrite Ha, Hs, Hc, Hl. intros [? ?]. destruct Hno; [lra | lia].
Qed.

Lemma AutoTune_manual_start s cd :
  AutoTune.ManualAt (AutoTune.manual s cd) s cd 0.
Proof. repeat split. Qed.

Lemma Baseline_handler_axis m now st :
  0 <= m ->
  exists a,
    Baseline.handler (AutoTune.axisSample m) now st =
    Baseline.classify m now
      {| Baseline.position := Baseline.position st;
         Baseline.bumps := Baseline.bumps st;
         Baseline.accel := a;
         Baseline.detecting := Baseline.detecting st;
         Baseline.connected := Baseline.connected st;
         Baseline.sensitivity := Baseline.sensitivity st;
         Baseline.cooldownMs := Baseline.cooldownMs st;
         Baseline.lastBumpRef := Baseline.lastBumpRef st |}.
Proof.
  intros Hm. unfold Baseline.handler, AutoTune.axisSample.
  cbn [AutoTune.g_x AutoTune.g_y AutoTune.g_z orZero].
  rewrite linear_axis by assumption. eexists; reflexivity.
Qed.

Lemma Baseline_manual_fire st s cd last m now :
  Baseline.ManualAt st s cd last -> 0 <= m ->
  m > s -> (now - last > cd)%Z ->
  exists st' b,
    Baseline.step (Baseline.Motion (AutoTune.axisSample m) now) st
    = (st', [("send-bump"%string, b)]) /\
    Baseline.bump_id b = now /\ Baseline.ManualAt st' s cd now.
Proof.
  intros (Hd & Hs & Hc & Hl) Hm Hgt Hel.
  unfold Baseline.step. rewrite Hd.
  destruct (Baseline_handler_axis m now st Hm) as [a ->].
  unfold Baseline.classify.
  replace (Baseline.fires m now _) with true.
  - do 2 eexists. split; [reflexivity |]. split; [reflexivity |].
    repeat split; assumption.
  - symmetry. apply Baseline_fires_iff.
    cbn [Baseline.sensitivity Baseline.cooldownMs Baseline.lastBumpRef].
    rewrite Hs, Hc, Hl. split; [lra | lia].
Qed.

Lemma Baseline_manual_quiet st s cd last m now :
  Baseline.ManualAt st s cd last -> 0 <= m ->
  m <= s \/ (now - last <= cd)%Z ->
  exists st',
    Baseline.step (Baseline.Motion (AutoTune.axisSample m) now) st
    = (st', []) /\
    Baseline.ManualAt st' s cd last.
Proof.
  intros (Hd & Hs & Hc & Hl) Hm Hno.
  unfold Baseline.step. rewrite Hd.
  destruct (Baseline_handler_axis m now st Hm) as [a ->].
  unfold Baseline.classify.
  replace (Baseline.fires m now _) with false.
  - eexists. split; [reflexivity |]. repeat split; assumption.
  - symmetry. apply not_true_is_false. rewrite Baseline_fires_iff.
    cbn [Baseline.sensitivity Baseline.cooldownMs Baseline.lastBumpRef].
    rewrite Hs, Hc, Hl. intros [? ?]. destruct Hno; [lra | lia].
Qed.

Lemma Baseline_manual_start s cd :
  Baseline.ManualAt (Baseline.manual s cd) s cd 0.
Proof. repeat split. Qed.

(** The test sequence of the classifier: metrics 5, 20, 3, 22 at clock
    readings [T], [T + 100], [T + 200], [T + 2000]. *)
Lemma AutoTune_sequence st (T last : Z) :
  AutoTune.ManualAt st 15 1800 last -> (T + 100 - last > 1800)%Z ->
  map (fun e => AutoTune.bump_id (snd e))
    (snd (AutoTune.run
            [AutoTune.Motion (AutoTune.axisSample 5) T;
             AutoTune.Motion (AutoTune.axisSample 20) (T + 100);
             AutoTune.Motion (AutoTune.axisSample 3) (T + 200);
             AutoTune.Motion (AutoTune.axisSample 22) (T + 2000)] st))
  = [(T + 100)%Z; (T + 2000)%Z].
Proof.
  intros H0 HT.
  destruct (AutoTune_manual_quiet st 15 1800 last 5 T H0)
    as (st1 & E1 & H1); [lra | left; lra |].
  destruct (AutoTune_manual_fire st1 15 1800 last 20 (T + 100) H1)
    as (st2 & b2 & E2 & I2 & H2); [lra | lra | lia |].
  destruct (AutoTune_manual_quiet st2 15 1800 (T + 100) 3 (T + 200) H2)
    as (st3 & E3 & H3); [lra | left; lra |].
  destruct (AutoTune_manual_fire st3 15 1800 (T + 100) 22 (T + 2000) H3)
    as (st4 & b4 & E4 & I4 & H4); [lra | lra | lia |].
  cbn [AutoTune.run]. rewrite E1, E2, E3, E4. cbn. now rewrite I2, I4.
Qed.

Lemma Baseline_sequence st (T last : Z) :
  Baseline.ManualAt st 15 1800 last -> (T + 100 - last > 1800)%Z ->
  map (fun e => Baseline.bump_id (snd e))
    (snd (Baseline.run
            [Baseline.Motion (AutoTune.axisSample 5) T;
             Baseline.Motion (AutoTune.axisSample 20) (T + 100);
             Baseline.Motion (AutoTune.axisSample 3) (T + 200);
             Baseline.Motion (AutoTune.axisSample 22) (T + 2000)] st))
  = [(T + 100)%Z; (T + 2000)%Z].
Proof.
  intros H0 HT.
  destruct (Baseline_manual_quiet st 15 1800 last 5 T H0)
    as (st1 & E1 & H1); [lra | left; lra |].
  destruct (Baseline_manual_fire st1 15 1800 last 20 (T + 100) H1)
    as (st2 & b2 & E2 & I2 & H2); [lra | lra | lia |].
  destruct (Baseline_manual_quiet st2 15 1800 (T + 100) 3 (T + 200) H2)
    as (st3 & E3 & H3); [lra | left; lra |].
  destruct (Baseline_manual_fire st3 15 1800 (T + 100) 22 (T + 2000) H3)
    as (st4 & b4 & E4 & I4 & H4); [lra | lra | lia |].
  cbn [Baseline.run]. rewrite E1, E2, E3, E4. cbn. now rewrite I2, I4.
Qed.

(** A strong sample inside the cooldown of a fired bump: metrics 20, 25, 22
    at clock readings [T + 100], [T + 200], [T + 2000]. *)
Lemma AutoTune_suppressed st (T last : Z) :
  AutoTune.ManualAt st 15 1800 last -> (T + 100 - last > 1800)%Z ->
  map (fun e => AutoTune.bump_id (snd e))
    (snd (AutoTune.run
            [AutoTune.Motion (AutoTune.axisSample 20) (T + 100);
             AutoTune.Motion (AutoTune.axisSample 25) (T + 200);
             AutoTune.Motion (AutoTune.axisSample 22) (T + 2000)] st))
  = [(T + 100)%Z; (T + 2000)%Z].
Proof.
  intros H0 HT.
  destruct (AutoTune_manual_fire st 15 1800 last 20 (T + 100) H0)
    as (st1 & b1 & E1 & I1 & H1); [lra | lra | lia |].
  destruct (AutoTune_manual_quiet st1 15 1800 (T + 100) 25 (T + 200) H1)
    as (st2 & E2 & H2); [lra | right; lia |].
  destruct (AutoTune_manual_fire st2 15 1800 (T + 100) 22 (T + 2000) H2)
    as (st3 & b3 & E3 & I3 & H3); [lra | lra | lia |].
  cbn [AutoTune.run]. rewrite E1, E2, E3. cbn. now rewrite I1, I3.
Qed.

Lemma Baseline_suppressed st (T last : Z) :
  Baseline.ManualAt st 15 1800 last -> (T + 100 - last > 1800)%Z ->
  map (fun e => Baseline.bump_id (snd e))
    (snd (Baseline.run
            [Baseline.Motion (AutoTune.axisSample 20) (T + 100);
             Baseline.Motion (AutoTune.axisSample 25) (T + 200);
             Baseline.Motion (AutoTune.axisSample 22) (T + 2000)] st))
  = [(T + 100)%Z; (T + 2000)%Z].
Proof.
  intros H0 HT.
  destruct (Baseline_manual_fire st 15 1800 last 20 (T + 100) H0)
    as (st1 & b1 & E1 & I1 & H1); [lra | lra | lia |].
  destruct (Baseline_manual_quiet st1 15 1800 (T + 100) 25 (T + 200) H1)
    as (st2 & E2 & H2); [lra | right; lia |].
  destruct (Baseline_manual_fire st2 15 1800 (T + 100) 22 (T + 2000) H2)
    as (st3 & b3 & E3 & I3 & H3); [lra | lra | lia |].
  cbn [Baseline.run]. rewrite E1, E2, E3. cbn. now rewrite I1, I3.
Qed.

(** What one motion sample does to the gate of the auto-tuning client:
    the tuning in force is kept, and either nothing is sent and the time of
    the last bump is kept, or one bump is sent, more than the cooldown
    after the last one, and its time becomes the time of the last bump. *)
Lemma AutoTune_motion_gate g now st :
  AutoTune.effectiveCooldown
    (fst (AutoTune.step (AutoTune.Motion g now) st))
  = AutoTune.effectiveCooldown st /\
  ((snd (AutoTune.step (AutoTune.Motion g now) st) = [] /\
    AutoTune.lastBumpRef (fst (AutoTune.step (AutoTune.Motion g now) st))
    = AutoTune.lastBumpRef st) \/
   (exists b,
      snd (AutoTune.step (AutoTune.Motion g now) st)
      = [("send-bump"%string, b)] /\
      AutoTune.bump_id b = now /\
      (now - AutoTune.lastBumpRef st > AutoTune.effectiveCooldown st)%Z /\
      AutoTune.lastBumpRef (fst (AutoTune.step (AutoTune.Motion g now) st))
      = now)).
Proof.
  cbn [AutoTune.step].
  destruct (AutoTune.detecting st); [| split; [reflexivity | now left]].
  unfold AutoTune.handler, AutoTune.classify.
  match goal with |- context [AutoTune.fires ?m now ?s] =>
    destruct (AutoTune.fires m now s) eqn:Hf end.
  - apply AutoTune_fires_iff in Hf. destruct Hf as [_ Ht].
    split; [reflexivity |]. right. eexists.
    split; [reflexivity |]. split; [reflexivity |].
    split; [exact Ht | reflexivity].
  - split; [reflexivity | now left].
Qed.

Lemma Baseline_motion_gate g now st :
  Baseline.cooldownMs (fst (Baseline.step (Baseline.Motion g now) st))
  = Baseline.cooldownMs st /\
  ((snd (Baseline.step (Baseline.Motion g now) st) = [] /\
    Baseline.lastBumpRef (fst (Baseline.step (Baseline.Motion g now) st))
    = Baseline.lastBumpRef st) \/
   (exists b,
      snd (Baseline.step (Baseline.Motion g now) st)
      = [("send-bump"%string, b)] /\
      Baseline.bump_id b = now /\
      (now - Baseline.lastBumpRef st > Baseline.cooldownMs st)%Z /\
      Baseline.lastBumpRef (fst (Baseline.step (Baseline.Motion g now) st))
      = now)).
Proof.
  cbn [Baseline.step].
  destruct (Baseline.detecting st); [| split; [reflexivity | now left]].
  unfold Baseline.handler, Baseline.classify.
  match goal with |- context [Baseline.fires ?m now ?s] =>
    destruct (Baseline.fires m now s) eqn:Hf end.
  - apply Baseline_fires_iff in Hf. destruct Hf as [_ Ht].
    split; [reflexivity |]. right. eexists.
    split; [reflexivity |]. split; [reflexivity |].
    split; [exact Ht | reflexivity].
  - split; [reflexivity | now left].
Qed.

(** Over any run of motion samples, each bump comes more than the cooldown
    after the bump before it. *)
Lemma AutoTune_samples_spaced (samples : list (option AutoTune.Gravity * Z)) :
  forall st,
  Timing.spacedOver (AutoTune.effectiveCooldown st) (AutoTune.lastBumpRef st)
    (map (fun e => AutoTune.bump_id (snd e))
       (snd (AutoTune.run
               (map (fun s => AutoTune.Motion (fst s) (snd s)) samples) st))).
Proof.
  induction samples as [| [g now] rest IH]; intros st; [exact I |].
  cbn [map AutoTune.run fst snd].
  pose proof (AutoTune_motion_gate g now st) as H.
  destruct (AutoTune.step (AutoTune.Motion g now) st) as [st1 out1].
  specialize (IH st1).
  destruct (AutoTune.run _ st1) as [st2 out2].
  cbn [fst snd] in *.
  destruct H as (Hcd & [[-> Hl] | (b & -> & Hid & Hgap & Hl)]);
    rewrite Hcd, Hl in IH.
  - exact IH.
  - cbn [app map snd Timing.spacedOver]. rewrite Hid. now split.
Qed.

Lemma Baseline_samples_spaced (samples : list (option AutoTune.Gravity * Z)) :
  forall st,
  Timing.spacedOver (Baseline.cooldownMs st) (Baseline.lastBumpRef st)
    (map (fun e => Baseline.bump_id (snd e))
       (snd (Baseline.run
               (map (fun s => Baseline.Motion (fst s) (snd s)) samples) st))).
Proof.
  induction samples as [| [g now] rest IH]; intros st; [exact I |].
  cbn [map Baseline.run fst snd].
  pose proof (Baseline_motion_gate g now st) as H.
  destruct (Baseline.step (Baseline.Motion g now) st) as [st1 out1].
  specialize (IH st1).
  destruct (Baseline.run _ st1) as [st2 out2].
  cbn [fst snd] in *.
  destruct H as (Hcd & [[-> Hl] | (b & -> & Hid & Hgap & Hl)]);
    rewrite Hcd, Hl in IH.
  - exact IH.
  - cbn [app map snd Timing.spacedOver]. rewrite Hid. now split.
Qed.

(** C1, as amended.  Both motion handlers produce a bump exactly when the
    metric exceeds the sensitivity threshold and the time since the last
    fired bump is strictly greater than the cooldown
    ([now - lastBumpRef > cooldown]); when that time is at most the
    cooldown nothing is produced and the state is untouched, whatever the
    metric.  A bump that fires makes its time the time of the last fired
    bump ([lastBumpRef] becomes [now]); a sample that does not fire leaves
    the state as it was.  So over any run of motion samples each bump comes
    more than the cooldown after the bump before it.  For the metrics 5,
    20, 3, 22 at clock readings [T], [T + 100], [T + 200], [T + 2000] with
    threshold 15 and cooldown 1800 ms, where the clock reading [T] is
    beyond 1700 ms and no bump fired before ([lastBumpRef] is 0), bumps
    fire at [T + 100] and [T + 2000] only; and for the metrics 20, 25, 22
    at [T + 100], [T + 200], [T + 2000] likewise: the strong sample at
    [T + 200], 100 ms after a bump, fires nothing. *)
Theorem classifier_gate (linear : R) (now T : Z) (st : AutoTune.State)
  (bst : Baseline.State) (samples : list (option AutoTune.Gravity * Z)) :
  (1700 < T)%Z ->
  ((exists b,
      snd (AutoTune.classify linear now st) = [("send-bump"%string, b)]) <->
   linear > AutoTune.effectiveSensitivity st /\
   (now - AutoTune.lastBumpRef st > AutoTune.effectiveCooldown st)%Z) /\
  ((now - AutoTune.lastBumpRef st <= AutoTune.effectiveCooldown st)%Z ->
   AutoTune.classify linear now st = (st, [])) /\
  ((exists b,
      snd (Baseline.classify linear now bst) = [("send-bump"%string, b)]) <->
   linear > Baseline.sensitivity bst /\
   (now - Baseline.lastBumpRef bst > Baseline.cooldownMs bst)%Z) /\
  ((now - Baseline.lastBumpRef bst <= Baseline.cooldownMs bst)%Z ->
   Baseline.classify linear now bst = (bst, [])) /\
  map (fun e => AutoTune.bump_id (snd e))
    (snd (AutoTune.run
            [AutoTune.Motion (AutoTune.axisSample 5) T;
             AutoTune.Motion (AutoTune.axisSample 20) (T + 100);
             AutoTune.Motion (AutoTune.axisSample 3) (T + 200);
             AutoTune.Motion (AutoTune.axisSample 22) (T + 2000)]
            (AutoTune.manual 15 1800)))
  = [(T + 100)%Z; (T + 2000)%Z] /\
  map (fun e => Baseline.bump_id (snd e))
    (snd (Baseline.run
            [Baseline.Motion (AutoTune.axisSample 5) T;
             Baseline.Motion (AutoTune.axisSample 20) (T + 100);
             Baseline.Motion (AutoTune.axisSample 3) (T + 200);
             Baseline.Motion (AutoTune.axisSample 22) (T + 2000)]
            (Baseline.manual 15 1800)))
  = [(T + 100)%Z; (T + 2000)%Z] /\
  (((exists b,
       snd (AutoTune.classify linear now st) = [("send-bump"%string, b)]) /\
    AutoTune.lastBumpRef (fst (AutoTune.classify linear now st)) = now /\
    AutoTune.effectiveCooldown (fst (AutoTune.classify linear now st))
    = AutoTune.effectiveCooldown st /\
    AutoTune.effectiveSensitivity (fst (AutoTune.classify linear now st))
    = AutoTune.effectiveSensitivity st) \/
   AutoTune.classify linear now st = (st, [])) /\
  (((exists b,
       snd (Baseline.classify linear now bst) = [("send-bump"%string, b)]) /\
    Baseline.lastBumpRef (fst (Baseline.classify linear now bst)) = now /\
    Baseline.cooldownMs (fst (Baseline.classify linear now bst))
    = Baseline.cooldownMs bst /\
    Baseline.sensitivity (fst (Baseline.classify linear now bst))
    = Baseline.sensitivity bst) \/
   Baseline.classify linear now bst = (bst, [])) /\
  Timing.spacedOver (AutoTune.effectiveCooldown st) (AutoTune.lastBumpRef st)
    (map (fun e => AutoTune.bump_id (snd e))
       (snd (AutoTune.run
               (map (fun s => AutoTune.Motion (fst s) (snd s)) samples) st))) /\
  Timing.spacedOver (Baseline.cooldownMs bst) (Baseline.lastBumpRef bst)
    (map (fun e => Baseline.bump_id (snd e))
       (snd (Baseline.run
               (map (fun s => Baseline.Motion (fst s) (snd s)) samples) bst))) /\
  map (fun e => AutoTune.bump_id (snd e))
    (snd (AutoTune.run
            [AutoTune.Motion (AutoTune.axisSample 20) (T + 100);
             AutoTune.Motion (AutoTune.axisSample 25) (T + 200);
             AutoTune.Motion (AutoTune.axisSample 22) (T + 2000)]
            (AutoTune.manual 15 1800)))
  = [(T + 100)%Z; (T + 2000)%Z] /\
  map (fun e => Baseline.bump_id (snd e))
    (snd (Baseline.run
            [Baseline.Motion (AutoTune.axisSample 20) (T + 100);
             Baseline.Motion (AutoTune.axisSample 25) (T + 200);
             Baseline.Motion (AutoTune.axisSample 22) (T + 2000)]
            (Baseline.manual 15 1800)))
  = [(T + 100)%Z; (T + 2000)%Z].
Proof.
  intros HT.
  split; [| split; [| split; [| split; [| split; [| split; [| split;
    [| split; [| split; [| split; [| split]]]]]]]]]].
  - now rewrite AutoTune_classify_sends, AutoTune_fires_iff.
  - intros Hcool. unfold AutoTune.classify.
    replace (AutoTune.fires linear now st) with false; [reflexivity |].
    symmetry. apply not_true_is_false. intros Hf.
    apply AutoTune_fires_iff in Hf. lia.
  - now rewrite Baseline_classify_sends, Baseline_fires_iff.
  - intros Hcool. unfold Baseline.classify.
    replace (Baseline.fires linear now bst) with false; [reflexivity |].
    symmetry. apply not_true_is_false. intros Hf.
    apply Baseline_fires_iff in Hf. lia.
  - apply AutoTune_sequence with (last := 0%Z);
      [apply AutoTune_manual_start | lia].
  - apply Baseline_sequence with (last := 0%Z);
      [apply Baseline_manual_start | lia].
  - unfold AutoTune.classify.
    destruct (AutoTune.fires linear now st); [left | now right].
    split; [eexists; reflexivity |]. now repeat split.
  - unfold Baseline.classify.
    destruct (Baseline.fires linear now bst); [left | now right].
    split; [eexists; reflexivity |]. now repeat split.
  - apply AutoTune_samples_spaced.
  - apply Baseline_samples_spaced.
  - apply AutoTune_suppressed with (last := 0%Z);
      [apply AutoTune_manual_start | lia].
  - apply Baseline_suppressed with (last := 0%Z);
      [apply Baseline_manual_start | lia].
Qed.

Lemma classifier_gate_witness :
  (1700 < 1700000000000)%Z /\
  map (fun e => AutoTune.bump_id (snd e))
    (snd (AutoTune.run
            [AutoTune.Motion (AutoTune.axisSample 5) 1700000000000;
             AutoTune.Motion (AutoTune.axisSample 20) (1700000000000 + 100);
             AutoTune.Motion (AutoTune.axisSample 3) (1700000000000 + 200);
             AutoTune.Motion (AutoTune.axisSample 22)
                             (1700000000000 + 2000)]
            (AutoTune.manual 15 1800)))
  = [(1700000000000 + 100)%Z; (1700000000000 + 2000)%Z] /\
  map (fun e => AutoTune.bump_id (snd e))
    (snd (AutoTune.run
            [AutoTune.Motion (AutoTune.axisSample 20) (1700000000000 + 100);
             AutoTune.Motion (AutoTune.axisSample 25) (1700000000000 + 200);
             AutoTune.Motion (AutoTune.axisSample 22)
                             (1700000000000 + 2000)]
            (AutoTune.manual 15 1800)))
  = [(1700000000000 + 100)%Z; (1700000000000 + 2000)%Z].
Proof.
  assert (H : (1700 < 1700000000000)%Z) by reflexivity.
  split; [exact H |].
  destruct (classifier_gate 0 0 1700000000000 AutoTune.initial
              Baseline.initial [] H)
    as (_ & _ & _ & _ & Hseq & _ & _ & _ & _ & _ & Hsup & _).
  split; [exact Hseq | exact Hsup].
Defined.

(** The specification opens the gate from [now - last >= cooldown] on.  That
    fails where the elapsed time equals the cooldown: after a bump at
    100000 ms, a sample of metric 20 at 101800 ms (threshold 15, cooldown
    1800 ms) fires nothing, in either client. *)
Lemma classifier_gate_closed_at_cooldown :
  20 > 15 /\ (101800 - 100000 >= 1800)%Z /\
  map (fun e => AutoTune.bump_id (snd e))
    (snd (AutoTune.run
            [AutoTune.Motion (AutoTune.axisSample 20) 100000;
             AutoTune.Motion (AutoTune.axisSample 20) 101800]
            (AutoTune.manual 15 1800)))
  = [100000%Z] /\
  map (fun e => Baseline.bump_id (snd e))
    (snd (Baseline.run
            [Baseline.Motion (AutoTune.axisSample 20) 100000;
             Baseline.Motion (AutoTune.axisSample 20) 101800]
            (Baseline.manual 15 1800)))
  = [100000%Z].
Proof.
  split; [lra |]. split; [lia |]. split.
  - destruct (AutoTune_manual_fire _ 15 1800 0 20 100000
                (AutoTune_manual_start 15 1800))
      as (st1 & b1 & E1 & I1 & H1); [lra | lra | lia |].
    destruct (AutoTune_manual_quiet st1 15 1800 100000 20 101800 H1)
      as (st2 & E2 & H2); [lra | right; lia |].
    cbn [AutoTune.run]. rewrite E1, E2. cbn. now rewrite I1.
  - destruct (Baseline_manual_fire _ 15 1800 0 20 100000
                (Baseline_manual_start 15 1800))
      as (st1 & b1 & E1 & I1 & H1); [lra | lra | lia |].
    destruct (Baseline_manual_quiet st1 15 1800 100000 20 101800 H1)
      as (st2 & E2 & H2); [lra | right; lia |].
    cbn [Baseline.run]. rewrite E1, E2. cbn. now rewrite I1.
Qed.

(** With the four clock readings taken as 0, 100, 200 and 2000 ms
    themselves, the sample at 100 ms falls within the cooldown counted
    from the initial [lastBumpRef] of 0, and only the last sample fires. *)
Lemma classifier_sequence_from_clock_zero :
  map (fun e => AutoTune.bump_id (snd e))
    (snd (AutoTune.run
            [AutoTune.Motion (AutoTune.axisSample 5) 0;
             AutoTune.Motion (AutoTune.axisSample 20) 100;
             AutoTune.Motion (AutoTune.axisSample 3) 200;
             AutoTune.Motion (AutoTune.axisSample 22) 2000]
            (AutoTune.manual 15 1800)))
  = [2000%Z].
Proof.
  destruct (AutoTune_manual_quiet _ 15 1800 0 5 0
              (AutoTune_manual_start 15 1800))
    as (st1 & E1 & H1); [lra | left; lra |].
  destruct (AutoTune_manual_quiet st1 15 1800 0 20 100 H1)
    as (st2 & E2 & H2); [lra | right; lia |].
  destruct (AutoTune_manual_quiet st2 15 1800 0 3 200 H2)
    as (st3 & E3 & H3); [lra | left; lra |].
  destruct (AutoTune_manual_fire st3 15 1800 0 22 2000 H3)
    as (st4 & b4 & E4 & I4 & H4); [lra | lra | lia |].
  cbn [AutoTune.run]. rewrite E1, E2, E3, E4. cbn. now rewrite I4.
Qed.

End ClassifierRuns.

(** ** The path *)

Section Path.
Import Js Geo AutoTune.

Lemma noRepeat_snoc (l : list Point) (x : Point) :
  noRepeat l -> lastOf l <> Some x -> noRepeat (l ++ [x]).
Proof.
  induction l as [| a [| b l] IH]; intros Hl Hlast.
  - exact I.
  - split; [| exact I]. intros ->. now apply Hlast.
  - destruct Hl as [Hab Hl]. split; [exact Hab |].
    apply IH; [exact Hl |]. now rewrite lastOf_cons in Hlast.
Qed.

Lemma noRepeat_tl (l : list Point) : noRepeat l -> noRepeat (tl l).
Proof. destruct l as [| a [| b l]]; simpl; tauto. Qed.

(** What the updater does, by cases on the last stored point and on the
    length. *)
Lemma setPathUpdater_cases (next : Position) (prev : list Point) :
  let p := (lat next, lon next) in
  (lastOf prev = Some p /\ setPathUpdater next prev = prev) \/
  (lastOf prev <> Some p /\ (Z.of_nat (length prev) < 10000)%Z /\
   setPathUpdater next prev = prev ++ [p]) \/
  (lastOf prev <> Some p /\ (10000 <= Z.of_nat (length prev))%Z /\
   setPathUpdater next prev = tl (prev ++ [p])).
Proof.
  intros p. unfold setPathUpdater.
  assert (Hlen : Z.of_nat (length (prev ++ [p]))
                 = (Z.of_nat (length prev) + 1)%Z)
    by (rewrite length_app; simpl; lia).
  fold p. rewrite Hlen.
  destruct (lastOf prev) as [[l0 l1] |] eqn:Hlast.
  - cbn [fst snd].
    destruct (neqb l0 (lat next)) eqn:H0; cbn [orb].
    + apply neqb_true in H0.
      assert (Some (l0, l1) <> Some p) by (unfold p; congruence).
      destruct (Z.gtb_spec (Z.of_nat (length prev) + 1) 10000);
        [right; right | right; left]; repeat split; (easy || lia).
    + apply neqb_false in H0.
      destruct (neqb l1 (lon next)) eqn:H1.
      * apply neqb_true in H1.
        assert (Some (l0, l1) <> Some p) by (unfold p; congruence).
        destruct (Z.gtb_spec (Z.of_nat (length prev) + 1) 10000);
          [right; right | right; left]; repeat split; (easy || lia).
      * apply neqb_false in H1. left. unfold p. now subst.
  - destruct (Z.gtb_spec (Z.of_nat (length prev) + 1) 10000);
      [right; right | right; left]; repeat split; (easy || lia).
Qed.

Lemma setPathUpdater_length next prev :
  (Z.of_nat (length prev) <= 10000)%Z ->
  (Z.of_nat (length (setPathUpdater next prev)) <= 10000)%Z.
Proof.
  intros Hlen.
  destruct (setPathUpdater_cases next prev)
    as [[_ ->] | [(_ & Hlt & ->) | (_ & Hge & ->)]].
  - exact Hlen.
  - rewrite length_app; simpl; lia.
  - destruct prev; simpl in *; [lia |].
    rewrite length_app; simpl; lia.
Qed.

Lemma setPathUpdater_noRepeat next prev :
  noRepeat prev -> noRepeat (setPathUpdater next prev).
Proof.
  intros Hnr.
  destruct (setPathUpdater_cases next prev)
    as [[_ ->] | [(Hne & _ & ->) | (Hne & _ & ->)]].
  - exact Hnr.
  - now apply noRepeat_snoc.
  - apply noRepeat_tl. now apply noRepeat_snoc.
Qed.

Lemma lastOf_tl_snoc {A} (l : list A) (x : A) :
  (1 <= length l)%nat -> lastOf (tl (l ++ [x])) = Some x.
Proof.
  destruct l as [| a l]; simpl; [lia |]. intros _. apply lastOf_snoc.
Qed.

Lemma setPathUpdater_last next prev :
  lastOf (setPathUpdater next prev) = Some (lat next, lon next).
Proof.
  destruct (setPathUpdater_cases next prev)
    as [[Hl ->] | [(_ & _ & ->) | (_ & Hge & ->)]].
  - exact Hl.
  - apply lastOf_snoc.
  - apply lastOf_tl_snoc. lia.
Qed.

Lemma setPathUpdater_twice next prev :
  setPathUpdater next (setPathUpdater next prev) = setPathUpdater next prev.
Proof.
  destruct (setPathUpdater_cases next (setPathUpdater next prev))
    as [[_ ->] | [(Hne & _) | (Hne & _)]];
    [reflexivity | |]; now rewrite setPathUpdater_last in Hne.
Qed.

Lemma step_path (e : Event) (st : State) :
  path (fst (step e st)) = path st \/
  exists c now, e = Pos c now /\
    path (fst (step e st))
    = setPathUpdater (mkPosition (latitude c) (longitude c)) (path st).
Proof.
  destruct e; cbn [step]; try (left; reflexivity).
  - destruct (String.eqb name "new-bump"); left; reflexivity.
  - right. now exists c, now.
  - left. destruct (detecting st); [| reflexivity].
    unfold handler, classify. destruct (fires _ _ _); reflexivity.
Qed.

Lemma step_pathOk e st : pathOk st -> pathOk (fst (step e st)).
Proof.
  intros [Hlen Hnr].
  destruct (step_path e st) as [E | (c & now & _ & E)];
    unfold pathOk; rewrite E.
  - now split.
  - split; [now apply setPathUpdater_length
           | now apply setPathUpdater_noRepeat].
Qed.

Lemma run_cons e es st :
  run (e :: es) st
  = (fst (run es (fst (step e st))),
     snd (step e st) ++ snd (run es (fst (step e st)))).
Proof.
  cbn [run]. destruct (step e st) as [st1 out1]. cbn [fst snd].
  now destruct (run es st1).
Qed.

Lemma run_pathOk es : forall st, pathOk st -> pathOk (fst (run es st)).
Proof.
  induction es as [| e es IH]; intros st Hok; [exact Hok |].
  rewrite run_cons. cbn [fst]. apply IH. now apply step_pathOk.
Qed.

(** C4.  Whatever happens in a session, the path never holds more than
    10000 points and never holds the same point twice in a row.  A fix
    whose coordinates are those of the last stored point leaves the path
    as it is; any other fix is appended, and when that makes more than
    10000 points the oldest one is dropped.  So the same fix fed twice in
    a row leaves the path after the second feed as it was after the
    first. *)
Theorem path_capped_without_repeats (es : list Event) (c : Coords)
  (now1 now2 : Z) (prev : list Point) :
  let st := fst (run es initial) in
  let p := (latitude c, longitude c) in
  let next := mkPosition (latitude c) (longitude c) in
  (Z.of_nat (length (path st)) <= 10000)%Z /\
  noRepeat (path st) /\
  ((lastOf prev = Some p /\ setPathUpdater next prev = prev) \/
   (lastOf prev <> Some p /\ (Z.of_nat (length prev) < 10000)%Z /\
    setPathUpdater next prev = prev ++ [p]) \/
   (lastOf prev <> Some p /\ (10000 <= Z.of_nat (length prev))%Z /\
    setPathUpdater next prev = tl (prev ++ [p]))) /\
  path (handlePos c now2 (handlePos c now1 st))
  = path (handlePos c now1 st).
Proof.
  intros st p next.
  assert (Hok : pathOk st).
  { apply run_pathOk. split; [simpl; lia | exact I]. }
  destruct Hok as [Hlen Hnr].
  split; [exact Hlen |]. split; [exact Hnr |].
  split; [apply (setPathUpdater_cases next prev) |].
  cbn [handlePos path]. apply setPathUpdater_twice.
Qed.

End Path.

(** ** The haversine distance: range and central angle *)

Section HaversineFacts.
Import Js Geo.

Lemma toRad_minus (a b : R) : toRad (a - b) = toRad a - toRad b.
Proof. unfold toRad. field. Qed.

Lemma sin_half_sq (x : R) : sin (x / 2) ^ 2 = (1 - cos x) / 2.
Proof.
  replace (cos x) with (cos (2 * (x / 2))) by (f_equal; field).
  rewrite cos_2a_sin. field.
Qed.

Lemma sin_sq_bounds (x : R) : 0 <= sin x ^ 2 <= 1.
Proof.
  pose proof (sin2_cos2 x) as H. unfold Rsqr in H.
  pose proof (pow2_ge_0 (sin x)). pose proof (pow2_ge_0 (cos x)).
  split; [assumption | nra].
Qed.

(** The number under the square root of [haversineMeters]. *)
Lemma haversine_argument_bounds (lat1 lon1 lat2 lon2 : R) :
  0 <= sin (toRad (lat2 - lat1) / 2) ^ 2
       + cos (toRad lat1) * cos (toRad lat2)
         * sin (toRad (lon2 - lon1) / 2) ^ 2 <= 1.
Proof.
  rewrite toRad_minus.
  set (p1 := toRad lat1). set (p2 := toRad lat2).
  set (v := sin (toRad (lon2 - lon1) / 2) ^ 2).
  assert (Hv : 0 <= v <= 1) by apply sin_sq_bounds.
  rewrite sin_half_sq.
  pose proof (cos_minus p2 p1) as Hm. pose proof (cos_plus p2 p1) as Hp.
  pose proof (COS_bound (p2 + p1)) as Hb.
  pose proof (COS_bound (p2 - p1)) as Hb'.
  set (c := cos p1 * cos p2).
  assert (Hc : 2 * c = cos (p2 - p1) + cos (p2 + p1)) by (unfold c; lra).
  split; nra.
Qed.

Lemma asin_nonneg (x : R) : 0 <= x <= 1 -> 0 <= asin x.
Proof.
  intros Hx. destruct (Rle_lt_dec 0 (asin x)) as [H | H]; [exact H |].
  pose proof (asin_bound x) as Hb. pose proof PI_RGT_0 as HPI.
  assert (Hs : sin (asin x) < 0) by (apply sin_lt_0_var; lra).
  rewrite sin_asin in Hs by lra. lra.
Qed.

(** The distance lies between 0 and half the circumference. *)
Lemma haversineMeters_bounds (lat1 lon1 lat2 lon2 : R) :
  0 <= haversineMeters lat1 lon1 lat2 lon2 <= PI * 6371000.
Proof.
  pose proof (haversine_argument_bounds lat1 lon1 lat2 lon2) as Ha.
  unfold haversineMeters.
  set (a := sin (toRad (lat2 - lat1) / 2) ^ 2
            + cos (toRad lat1) * cos (toRad lat2)
              * sin (toRad (lon2 - lon1) / 2) ^ 2) in *.
  assert (Hs : 0 <= sqrt a <= 1).
  { split; [apply sqrt_pos |].
    rewrite <- sqrt_1. apply sqrt_le_1_alt. lra. }
  pose proof (asin_nonneg (sqrt a) Hs) as H0.
  pose proof (asin_bound (sqrt a)) as [_ H1].
  split; nra.
Qed.

(** The distance divided by the radius is the central angle between the
    two points: its cosine is given by the spherical law of cosines. *)
Lemma haversineMeters_central_angle (lat1 lon1 lat2 lon2 : R) :
  cos (haversineMeters lat1 lon1 lat2 lon2 / 6371000)
  = sin (toRad lat1) * sin (toRad lat2)
    + cos (toRad lat1) * cos (toRad lat2) * cos (toRad (lon2 - lon1)).
Proof.
  pose proof (haversine_argument_bounds lat1 lon1 lat2 lon2) as Ha.
  unfold haversineMeters.
  set (a := sin (toRad (lat2 - lat1) / 2) ^ 2
            + cos (toRad lat1) * cos (toRad lat2)
              * sin (toRad (lon2 - lon1) / 2) ^ 2) in *.
  assert (Hs : 0 <= sqrt a <= 1).
  { split; [apply sqrt_pos |].
    rewrite <- sqrt_1. apply sqrt_le_1_alt. lra. }
  replace (2 * 6371000 * asin (sqrt a) / 6371000)
    with (2 * asin (sqrt a)) by field.
  rewrite cos_2a_sin, sin_asin by lra.
  replace (1 - 2 * sqrt a * sqrt a) with (1 - 2 * (sqrt a * sqrt a)) by ring.
  rewrite sqrt_sqrt by lra.
  unfold a. rewrite !sin_half_sq, toRad_minus, cos_minus. field.
Qed.

End HaversineFacts.

(** ** Speed derivation *)

Section Speed.
Import Js Geo AutoTune.

Lemma clamp_bounds (v : R) : 0 <= Rmax 0 (Rmin 180 v) <= 180.
Proof.
  split; [apply Rmax_l |].
  apply Rmax_lub; [lra | apply Rmin_l].
Qed.

Lemma spdMs_native (c : Coords) (now : Z) (lastGeo : option GeoFix) (s : R) :
  speed c = Some s -> 0 <= s -> spdMs c now lastGeo = Some s.
Proof.
  intros Hs Hpos. unfold spdMs. rewrite Hs.
  replace (geb s 0) with true by (symmetry; apply geb_true; lra).
  reflexivity.
Qed.

Lemma spdMs_derived (c : Coords) (now : Z) (g : GeoFix) :
  (forall s, speed c = Some s -> s < 0) ->
  let dt := IZR (now - geo_t g) / 1000 in
  (0.5 < dt < 15 /\
   spdMs c now (Some g)
   = Some (haversineMeters (geo_lat g) (geo_lon g) (latitude c) (longitude c)
           / dt)) \/
  (~ (0.5 < dt < 15) /\ spdMs c now (Some g) = None).
Proof.
  intros Hnat dt. unfold spdMs.
  assert (Hnone : match speed c with
                  | Some s => if geb s 0 then Some s else None
                  | None => None
                  end = None).
  { destruct (speed c) as [s |] eqn:Hs; [| reflexivity].
    specialize (Hnat s eq_refl).
    replace (geb s 0) with false by (symmetry; apply geb_false; lra).
    reflexivity. }
  rewrite Hnone. fold dt.
  destruct (gtb dt 0.5) eqn:Hlo; cbn [andb].
  - apply gtb_true in Hlo.
    destruct (ltb dt 15) eqn:Hhi.
    + apply ltb_true in Hhi. left. split; [lra | reflexivity].
    + apply ltb_false in Hhi. right. split; [lra | reflexivity].
  - apply gtb_false in Hlo. right. split; [lra | reflexivity].
Qed.

(** C2.  When the state holds a previous fix [g] and the new fix carries no
    non-negative native speed, let [dt] be the time in seconds between the
    two.  If [0.5 < dt < 15] the new speed is the haversine distance between
    the two fixes divided by [dt], times 3.6, clamped to [0, 180]; otherwise
    the speed is left as it was.  Either way the new fix becomes the latest
    fix.  The distance [d] is the haversine formula with radius 6371000 m,
    and it is the great-circle distance on the sphere of that radius: it
    lies between 0 and half the circumference, and [d / 6371000] is the
    central angle between the two fixes, whose cosine is given by the
    spherical law of cosines. *)
Theorem derived_speed (st : State) (c : Coords) (now : Z) (g : GeoFix) :
  lastGeoRef st = Some g ->
  (forall s, speed c = Some s -> s < 0) ->
  let dt := IZR (now - geo_t g) / 1000 in
  let st' := handlePos c now st in
  let d := haversineMeters (geo_lat g) (geo_lon g) (latitude c) (longitude c) in
  let rad := fun degrees : R => degrees * PI / 180 in
  ((0.5 < dt < 15 /\
    speedKmh st'
    = Rmax 0 (Rmin 180
        (haversineMeters (geo_lat g) (geo_lon g) (latitude c) (longitude c)
         / dt * 3.6)) /\
    0 <= speedKmh st' <= 180) \/
   (~ (0.5 < dt < 15) /\ speedKmh st' = speedKmh st)) /\
  lastGeoRef st' = Some (mkGeoFix (latitude c) (longitude c) now) /\
  position st' = mkPosition (latitude c) (longitude c) /\
  d = 2 * 6371000
      * asin (sqrt (sin (rad (latitude c - geo_lat g) / 2) ^ 2
                    + cos (rad (geo_lat g)) * cos (rad (latitude c))
                      * sin (rad (longitude c - geo_lon g) / 2) ^ 2)) /\
  0 <= d <= PI * 6371000 /\
  cos (d / 6371000)
  = sin (rad (geo_lat g)) * sin (rad (latitude c))
    + cos (rad (geo_lat g)) * cos (rad (latitude c))
      * cos (rad (longitude c - geo_lon g)).
Proof.
  intros Hg Hnat dt st' d rad.
  split; [| split; [reflexivity | split; [reflexivity | split;
    [reflexivity | split;
      [apply haversineMeters_bounds
      | exact (haversineMeters_central_angle
                 (geo_lat g) (geo_lon g) (latitude c) (longitude c))]]]]].
  unfold st'. cbn [handlePos speedKmh]. rewrite Hg.
  destruct (spdMs_derived c now g Hnat) as [[Hin ->] | [Hout ->]]; fold dt.
  - left. split; [exact Hin |]. split; [reflexivity | apply clamp_bounds].
  - right. split; [exact Hout | reflexivity].
Qed.

Lemma derived_speed_witness :
  let g := mkGeoFix 28.6139 77.209 1000 in
  let c := mkCoords 28.614 77.209 None in
  let st := handlePos (mkCoords 28.6139 77.209 None) 1000 initial in
  let dt := IZR (3000 - 1000) / 1000 in
  0.5 < dt < 15 /\
  speedKmh (handlePos c 3000 st)
  = Rmax 0 (Rmin 180 (haversineMeters 28.6139 77.209 28.614 77.209
                      / dt * 3.6)).
Proof.
  intros g c st dt.
  assert (Hg : lastGeoRef st = Some g) by reflexivity.
  assert (Hnat : forall s, speed c = Some s -> s < 0)
    by (intros s Hs; discriminate Hs).
  assert (Hdt : 0.5 < dt < 15).
  { unfold dt. change (3000 - 1000)%Z with 2000%Z. lra. }
  split; [exact Hdt |].
  destruct (derived_speed st c 3000 g Hg Hnat) as [[(_ & E & _) | [Hout _]] _].
  - exact E.
  - exfalso. apply Hout. exact Hdt.
Defined.

End Speed.

(** ** The segment correlator *)

Section Backtrack.
Import Js Geo AutoTune.

Lemma firstn_S_snoc {A} (d : A) (l : list A) :
  forall j, (j < length l)%nat -> firstn (S j) l = firstn j l ++ [nth j l d].
Proof.
  induction l as [| x l IH]; intros j Hj; simpl in Hj; [lia |].
  destruct j as [| j]; [reflexivity |].
  change (firstn (S (S j)) (x :: l)) with (x :: firstn (S j) l).
  rewrite IH by lia. reflexivity.
Qed.

Lemma backLength_snoc (l : list Point) (x a : Point) :
  backLength ((l ++ [x]) ++ [a])
  = backLength (l ++ [x]) + haversineMeters (fst a) (snd a) (fst x) (snd x).
Proof.
  induction l as [| y l IH].
  - simpl. ring.
  - destruct l as [| z l].
    + simpl. ring.
    + change (backLength (((y :: z :: l) ++ [x]) ++ [a]))
        with (haversineMeters (fst z) (snd z) (fst y) (snd y)
              + backLength (((z :: l) ++ [x]) ++ [a])).
      change (backLength ((y :: z :: l) ++ [x]))
        with (haversineMeters (fst z) (snd z) (fst y) (snd y)
              + backLength ((z :: l) ++ [x])).
      rewrite IH. ring.
Qed.

Lemma suffix_last {A} (l1 l2 n : list A) (x : A) :
  l1 ++ [x] = l2 ++ n -> n <> [] -> exists pre, n = pre ++ [x].
Proof.
  intros E Hn. destruct (exists_last Hn) as (pre & y & ->).
  exists pre. rewrite app_assoc in E.
  apply app_inj_tail in E. destruct E as [_ ->]. reflexivity.
Qed.

(** The loop entered at index [i]: the points up to [i] split into those
    not reached, the older end [b] of the last leg counted, and the points
    prepended. *)
Lemma backtrack_split (path : list Point) :
  forall i seg acc, (i < length path)%nat ->
  exists older b newer,
    firstn (S i) path = older ++ b :: newer /\
    fst (backtrack path i seg acc) = newer ++ seg /\
    snd (backtrack path i seg acc) = acc + backLength (b :: newer) /\
    (snd (backtrack path i seg acc) >= MAX_BACK_METERS \/ older = []) /\
    (acc < MAX_BACK_METERS -> acc + backLength newer < MAX_BACK_METERS) /\
    ((1 <= i)%nat -> newer <> []).
Proof.
  induction i as [| j IH]; intros seg acc Hi.
  - destruct path as [| p0 path]; [simpl in Hi; lia |].
    exists [], p0, []. cbn. repeat split; try (intros; lra || lia).
    now right.
  - set (a := nth (S j) path (0, 0)). set (b0 := nth j path (0, 0)).
    assert (Ha : firstn (S (S j)) path = firstn (S j) path ++ [a])
      by (apply firstn_S_snoc; lia).
    assert (Hb : firstn (S j) path = firstn j path ++ [b0])
      by (apply firstn_S_snoc; lia).
    cbn [backtrack]. fold a b0.
    destruct (geb (acc + haversineMeters (fst a) (snd a) (fst b0) (snd b0))
                  MAX_BACK_METERS) eqn:Hbreak.
    + apply geb_true in Hbreak.
      exists (firstn j path), b0, [a]. cbn [fst snd].
      split; [rewrite Ha, Hb, <- app_assoc; reflexivity |].
      split; [reflexivity |].
      split; [simpl; ring |].
      split; [left; simpl; exact Hbreak |].
      split; [simpl; intros; lra | intros _; discriminate].
    + apply geb_false in Hbreak.
      destruct (IH (a :: seg)
                  (acc + haversineMeters (fst a) (snd a) (fst b0) (snd b0)))
        as (older & b & newer & Hsplit & Hseg & Hacc & Hstop & Hless & _);
        [lia |].
      exists older, b, (newer ++ [a]).
      split; [rewrite Ha, Hsplit, <- app_assoc; reflexivity |].
      split; [rewrite Hseg, <- app_assoc; reflexivity |].
      assert (Hlast : exists pre, b :: newer = pre ++ [b0]).
      { apply (suffix_last (firstn j path) older); [| discriminate].
        now rewrite <- Hb. }
      destruct Hlast as [pre Hpre].
      assert (Hsum : backLength (b :: newer ++ [a])
                     = backLength (b :: newer)
                       + haversineMeters (fst a) (snd a) (fst b0) (snd b0)).
      { change (b :: newer ++ [a]) with ((b :: newer) ++ [a]).
        rewrite Hpre. apply backLength_snoc. }
      split; [rewrite Hacc, Hsum; ring |].
      split; [rewrite Hacc in *; exact Hstop |].
      split; [| intros _; now destruct newer].
      intros Hlt.
      destruct newer as [| n0 newer'].
      * simpl. lra.
      * assert (Hn : exists pre', n0 :: newer' = pre' ++ [b0]).
        { apply (suffix_last (firstn j path) (older ++ [b]));
            [| discriminate].
          now rewrite <- Hb, Hsplit, <- app_assoc. }
        destruct Hn as [pre' Hpre'].
        rewrite Hpre', backLength_snoc, <- Hpre'.
        specialize (Hless Hbreak). lra.
Qed.

Lemma length_ltb_2 {A} (l : list A) :
  (length l <? 2)%nat = false <-> (2 <= length l)%nat.
Proof. rewrite Nat.ltb_ge. reflexivity. Qed.

(** The segment of a path of two points or more. *)
Lemma addRedSegmentNear_split (centerLat centerLon : R) (path : list Point)
  (redSegments : list (list Point)) :
  (2 <= length path)%nat ->
  exists older b newer acc,
    path = older ++ b :: newer /\ newer <> [] /\
    addRedSegmentNear centerLat centerLon path redSegments
    = redSegments ++ [newer ++ [(centerLat, centerLon)]] /\
    acc = backLength (b :: newer) /\
    (acc >= MAX_BACK_METERS \/ older = []) /\
    backLength newer < MAX_BACK_METERS.
Proof.
  intros Hlen. unfold addRedSegmentNear.
  replace (length path <? 2)%nat with false
    by (symmetry; now apply length_ltb_2).
  destruct (backtrack_split path (length path - 1)
              [(centerLat, centerLon)] 0)
    as (older & b & newer & Hsplit & Hseg & Hacc & Hstop & Hless & Hne);
    [lia |].
  replace (S (length path - 1)) with (length path) in Hsplit by lia.
  rewrite firstn_all in Hsplit.
  exists older, b, newer, (backLength (b :: newer)).
  assert (Hnewer : newer <> []) by (apply Hne; lia).
  rewrite Hseg.
  replace (2 <=? length (newer ++ [(centerLat, centerLon)]))%nat with true.
  - repeat split; try assumption.
    + rewrite Hacc in Hstop. now rewrite Rplus_0_l in Hstop.
    + unfold MAX_BACK_METERS in *. lra.
  - symmetry. apply Nat.leb_le. rewrite length_app. simpl.
    destruct newer; [contradiction | simpl; lia].
Qed.

Lemma addRedSegmentNear_short (centerLat centerLon : R) (path : list Point)
  (redSegments : list (list Point)) :
  (length path < 2)%nat ->
  addRedSegmentNear centerLat centerLon path redSegments = redSegments.
Proof.
  intros Hlen. unfold addRedSegmentNear.
  now replace (length path <? 2)%nat with true
    by (symmetry; now apply Nat.ltb_lt).
Qed.

Lemma addRedSegmentNear_two_points centerLat centerLon (p q : Point) :
  addRedSegmentNear centerLat centerLon [p; q] []
  = [[q; (centerLat, centerLon)]].
Proof.
  unfold addRedSegmentNear. cbn [length Nat.ltb Nat.leb Nat.sub].
  cbn [backtrack nth].
  destruct (geb _ MAX_BACK_METERS); reflexivity.
Qed.

End Backtrack.

Section Meridian.
Import Js Geo AutoTune.

(** Along a meridian the haversine distance is the difference of the
    northings. *)
Lemma haversine_meridian (a b : R) :
  0 <= b - a <= 1000 ->
  haversineMeters (fst (metersNorth a)) (snd (metersNorth a))
                  (fst (metersNorth b)) (snd (metersNorth b)) = b - a.
Proof.
  intros Hab. unfold haversineMeters, metersNorth, toRad. cbn [fst snd].
  pose proof PI_RGT_0 as HPI. pose proof PI2_1 as HPI2.
  replace ((0 - 0) * PI / 180 / 2) with 0 by field.
  rewrite sin_0.
  replace ((b * 180 / (6371000 * PI) - a * 180 / (6371000 * PI)) * PI / 180 / 2)
    with ((b - a) / 12742000) by (field; lra).
  set (x := (b - a) / 12742000).
  assert (Hx : 0 <= x <= 1) by (unfold x; lra).
  replace (sin x ^ 2 + cos (a * 180 / (6371000 * PI) * PI / 180)
                       * cos (b * 180 / (6371000 * PI) * PI / 180) * 0 ^ 2)
    with (sin x ^ 2) by ring.
  rewrite sqrt_pow2 by (apply sin_ge_0; lra).
  rewrite asin_sin by lra.
  unfold x. field.
Qed.

Lemma backtrack_ten_meter_spacing :
  backtrack
    [metersNorth 50; metersNorth 40; metersNorth 30; metersNorth 20;
     metersNorth 10; metersNorth 0]
    5 [metersNorth 0] 0
  = ([metersNorth 20; metersNorth 10; metersNorth 0; metersNorth 0], 30).
Proof.
  cbn [backtrack nth]. rewrite !haversine_meridian by lra.
  unfold MAX_BACK_METERS. js_cmp. f_equal. ring.
Qed.

End Meridian.

Section Segments.
Import Js Geo AutoTune.

(** C5, as amended.  A path of fewer than two points gives no segment.  On a
    path of two points or more the walk goes back from the newest point,
    adds the haversine length of each leg to the accumulated distance and
    prepends the newer end of that leg, until the accumulated distance
    reaches 30 m or every leg of the path has been counted.  The segment
    appended to the list is the run [newer] of newest path points that were
    visited, in path order, followed by the event location: its first point
    is the farthest-back point visited and its last point is the event
    location.  The accumulated distance also counts the leg from that first
    point to the next older path point [b], which is not in the segment; it
    is at least 30 m unless the walk reached the start of the path, and the
    stretch of path that the segment covers is shorter than 30 m. *)
Theorem red_segment_backtrack (centerLat centerLon : R) (path : list Point)
  (redSegments : list (list Point)) :
  ((length path < 2)%nat /\
   addRedSegmentNear centerLat centerLon path redSegments = redSegments) \/
  ((2 <= length path)%nat /\
   exists older b newer,
     path = older ++ b :: newer /\ newer <> [] /\
     addRedSegmentNear centerLat centerLon path redSegments
     = redSegments ++ [newer ++ [(centerLat, centerLon)]] /\
     backtrack path (length path - 1) [(centerLat, centerLon)] 0
     = (newer ++ [(centerLat, centerLon)], backLength (b :: newer)) /\
     (backLength (b :: newer) >= MAX_BACK_METERS \/ older = []) /\
     backLength newer < MAX_BACK_METERS).
Proof.
  destruct (Nat.lt_ge_cases (length path) 2) as [Hshort | Hlong].
  - left. split; [exact Hshort | now apply addRedSegmentNear_short].
  - right. split; [exact Hlong |].
    destruct (addRedSegmentNear_split centerLat centerLon path redSegments
                Hlong)
      as (older & b & newer & acc & Hsplit & Hne & Hadd & -> & Hstop & Hless).
    exists older, b, newer. repeat split; try assumption.
    destruct (backtrack_split path (length path - 1)
                [(centerLat, centerLon)] 0)
      as (older' & b' & newer' & Hsplit' & Hseg' & Hacc' & _); [lia |].
    replace (S (length path - 1)) with (length path) in Hsplit' by lia.
    rewrite firstn_all in Hsplit'.
    assert (Hsame : newer' = newer).
    { unfold addRedSegmentNear in Hadd.
      replace (length path <? 2)%nat with false in Hadd
        by (symmetry; now apply length_ltb_2).
      rewrite Hseg' in Hadd. cbv zeta in Hadd.
      destruct (2 <=? length (newer' ++ [(centerLat, centerLon)]))%nat.
      - apply app_inv_head in Hadd. injection Hadd as Hadd.
        now apply app_inv_tail in Hadd.
      - exfalso. apply (f_equal (@length _)) in Hadd.
        rewrite length_app in Hadd. simpl in Hadd. lia. }
    subst newer'.
    assert (Hb : b' = b /\ older' = older).
    { rewrite Hsplit in Hsplit'.
      apply (f_equal (@rev _)) in Hsplit'.
      rewrite !rev_app_distr in Hsplit'. simpl in Hsplit'.
      rewrite <- !app_assoc in Hsplit'. apply app_inv_head in Hsplit'.
      simpl in Hsplit'. injection Hsplit' as Hb Ho.
      split; [now symmetry |]. apply (f_equal (@rev _)) in Ho.
      now rewrite !rev_involutive in Ho. }
    destruct Hb as [-> ->].
    rewrite (surjective_pairing (backtrack _ _ _ _)), Hseg', Hacc'.
    now rewrite Rplus_0_l.
Qed.

(** The specification has the segment span at least 30 m, or the whole path
    when that is shorter.  That fails on six points spaced 10 m apart with
    the event at the newest point: the walk counts 30 m, but the segment
    starts at the point 20 m back, so it covers 20 m of a path that is 50 m
    long.
    It fails on a path shorter than 30 m too: of two points 10 m apart the
    segment holds the newest one and the event location only, so it covers
    0 m and not the whole path. *)
Lemma red_segment_covers_twenty_meters :
  addRedSegmentNear (fst (metersNorth 0)) (snd (metersNorth 0))
    [metersNorth 50; metersNorth 40; metersNorth 30; metersNorth 20;
     metersNorth 10; metersNorth 0] []
  = [[metersNorth 20; metersNorth 10; metersNorth 0; metersNorth 0]] /\
  backLength [metersNorth 20; metersNorth 10; metersNorth 0; metersNorth 0]
  = 20 /\
  backLength [metersNorth 50; metersNorth 40; metersNorth 30; metersNorth 20;
              metersNorth 10; metersNorth 0] = 50 /\
  addRedSegmentNear (fst (metersNorth 0)) (snd (metersNorth 0))
    [metersNorth 10; metersNorth 0] []
  = [[metersNorth 0; metersNorth 0]] /\
  backLength [metersNorth 0; metersNorth 0] = 0 /\
  backLength [metersNorth 10; metersNorth 0] = 10.
Proof.
  split; [| split; [| split; [| split; [| split]]]].
  - unfold addRedSegmentNear. cbn [length Nat.ltb Nat.leb Nat.sub].
    set (walk := backtrack _ _ _ _).
    assert (E : walk = ([metersNorth 20; metersNorth 10; metersNorth 0;
                         metersNorth 0], 30))
      by exact backtrack_ten_meter_spacing.
    rewrite E. reflexivity.
  - cbn [backLength]. rewrite !haversine_meridian by lra. ring.
  - cbn [backLength]. rewrite !haversine_meridian by lra. ring.
  - apply (addRedSegmentNear_two_points _ _ (metersNorth 10) (metersNorth 0)).
  - cbn [backLength]. rewrite !haversine_meridian by lra. ring.
  - cbn [backLength]. rewrite !haversine_meridian by lra. ring.
Qed.

End Segments.

(** ** The high threshold and the list of red segments *)

Section HighThreshold.
Import Js Geo AutoTune.

Lemma highThreshold_above (s : R) :
  16 <= highThreshold s /\ s + 3 <= highThreshold s.
Proof. unfold highThreshold. split; [apply Rmax_l | apply Rmax_r]. Qed.

Lemma addRedSegmentNear_grows centerLat centerLon path segs :
  addRedSegmentNear centerLat centerLon path segs = segs \/
  exists seg, addRedSegmentNear centerLat centerLon path segs = segs ++ [seg].
Proof.
  unfold addRedSegmentNear.
  destruct (length path <? 2)%nat; [now left |].
  destruct (2 <=? _)%nat; [right; eexists; reflexivity | now left].
Qed.

(** The motion handler touches the red segments only on a sample that
    fires and whose metric is at least the high threshold. *)
Lemma classify_redSegments linear now st :
  redSegments (fst (classify linear now st)) = redSegments st \/
  (fires linear now st = true /\
   linear >= highThreshold (effectiveSensitivity st) /\
   exists seg,
     redSegments (fst (classify linear now st)) = redSegments st ++ [seg]).
Proof.
  unfold classify. destruct (fires linear now st); [| now left].
  cbn [fst redSegments].
  destruct (geb linear (highThreshold (effectiveSensitivity st))) eqn:Hhigh;
    [| now left].
  apply geb_true in Hhigh.
  destruct (addRedSegmentNear_grows (lat (position st)) (lon (position st))
              (path st) (redSegments st)) as [-> | [seg ->]];
    [now left | right].
  repeat split; [exact Hhigh | now exists seg].
Qed.

Lemma step_redSegments e st :
  exists added, redSegments (fst (step e st)) = redSegments st ++ added.
Proof.
  assert (Hsame : forall s, redSegments s = redSegments st ->
                            exists added, redSegments s = redSegments st ++ added)
    by (intros s ->; exists []; now rewrite app_nil_r).
  destruct e; cbn [step]; try (apply Hsame; reflexivity).
  - destruct (String.eqb name "new-bump"); apply Hsame; reflexivity.
  - destruct (detecting st); [| apply Hsame; reflexivity].
    unfold handler.
    destruct (classify_redSegments (acc_linear (linearOf g)) now
                (setAccel (linearOf g) st)) as [E | (_ & _ & seg & E)].
    + apply Hsame. exact E.
    + exists [seg]. exact E.
Qed.

Lemma run_redSegments es :
  forall st,
  exists added, redSegments (fst (run es st)) = redSegments st ++ added.
Proof.
  induction es as [| e es IH]; intros st.
  - exists []. cbn. now rewrite app_nil_r.
  - rewrite run_cons. cbn [fst].
    destruct (IH (fst (step e st))) as [more ->].
    destruct (step_redSegments e st) as [added ->].
    exists (added ++ more). now rewrite app_assoc.
Qed.

(** C7, as amended.  The high threshold is [max(16, sensitivity + 3)], so
    it is never below the firing threshold.  The motion handler appends a
    red segment only on a sample that fired a bump and whose metric is at
    least the high threshold (a metric equal to it is enough), and then it
    appends exactly one.  Over a whole session the list of red segments
    only grows: the list at the end is the list at the start followed by
    what was appended. *)
Theorem high_threshold_segments (s : R) (g : option Gravity) (now : Z)
  (st : State) (es : list Event) :
  highThreshold s = Rmax 16 (s + 3) /\
  s <= highThreshold s /\
  (redSegments (fst (handler g now st)) = redSegments st \/
   ((exists b, snd (handler g now st) = [("send-bump"%string, b)]) /\
    acc_linear (linearOf g) >= highThreshold (effectiveSensitivity st) /\
    exists seg,
      redSegments (fst (handler g now st)) = redSegments st ++ [seg])) /\
  (exists added, redSegments (fst (run es st)) = redSegments st ++ added).
Proof.
  split; [reflexivity |].
  split; [destruct (highThreshold_above s); lra |].
  split; [| apply run_redSegments].
  unfold handler.
  destruct (classify_redSegments (acc_linear (linearOf g)) now
              (setAccel (linearOf g) st)) as [E | (Hf & Hhigh & seg & E)].
  - left. exact E.
  - right. split; [now apply AutoTune_classify_sends |].
    split; [exact Hhigh | now exists seg].
Qed.

Lemma setPathUpdater_nil next : setPathUpdater next [] = [(lat next, lon next)].
Proof.
  destruct (setPathUpdater_cases next [])
    as [[H _] | [(_ & _ & ->) | (_ & H & _)]];
    [discriminate H | reflexivity | simpl in H; lia].
Qed.

Lemma setPathUpdater_second next (p : Point) :
  p <> (lat next, lon next) ->
  setPathUpdater next [p] = [p; (lat next, lon next)].
Proof.
  intros Hp.
  destruct (setPathUpdater_cases next [p])
    as [[H _] | [(_ & _ & ->) | (_ & H & _)]];
    [| reflexivity | simpl in H; lia].
  cbn in H. congruence.
Qed.

Lemma manual_fire_redSegments st s cd last m now :
  ManualAt st s cd last -> 0 <= m ->
  m > s -> (now - last > cd)%Z ->
  redSegments (fst (step (Motion (axisSample m) now) st))
  = if geb m (highThreshold s)
    then addRedSegmentNear (lat (position st)) (lon (position st))
                           (path st) (redSegments st)
    else redSegments st.
Proof.
  intros (Hd & Ha & Hs & Hc & Hl) Hm Hgt Hel.
  unfold step. rewrite Hd, AutoTune_handler_axis by assumption.
  unfold classify.
  replace (fires m now _) with true.
  - cbn [fst redSegments setAccel position path].
    unfold effectiveSensitivity. cbn [setAccel autoTune manualSensitivity].
    now rewrite Ha, Hs.
  - symmetry. apply AutoTune_fires_iff.
    unfold effectiveSensitivity, effectiveCooldown.
    cbn [setAccel autoTune manualSensitivity manualCooldownMs lastBumpRef].
    rewrite Ha, Hs, Hc, Hl. split; [lra | lia].
Qed.

(** The specification has a segment only when the metric exceeds the high
    threshold.  That fails at a metric equal to it: in manual mode with
    sensitivity 12 the high threshold is 16, and after two fixes a sample of
    metric 16 fires and appends a segment. *)
Lemma segment_at_high_threshold :
  highThreshold 12 = 16 /\
  acc_linear (linearOf (axisSample 16)) = 16 /\
  redSegments
    (fst (run [Pos (mkCoords 28.6139 77.209 None) 1000;
               Pos (mkCoords 28.614 77.209 None) 3000;
               Motion (axisSample 16) 5000]
              (manual 12 1800)))
  = [[(28.614, 77.209); (28.614, 77.209)]].
Proof.
  split; [| split].
  - unfold highThreshold, Rmax. destruct (Rle_dec 16 (12 + 3)); lra.
  - unfold linearOf, axisSample.
    cbn [g_x g_y g_z orZero acc_linear]. apply linear_axis. lra.
  - rewrite !run_cons. cbn [run fst].
    set (st1 := fst (step (Pos (mkCoords 28.6139 77.209 None) 1000)
                          (manual 12 1800))).
    set (st2 := fst (step (Pos (mkCoords 28.614 77.209 None) 3000) st1)).
    assert (H2 : ManualAt st2 12 1800 0) by (repeat split).
    rewrite (manual_fire_redSegments st2 12 1800 0 16 5000 H2)
      by (lra || lia).
    replace (geb 16 (highThreshold 12)) with true.
    + assert (Hpath : path st2 = [(28.6139, 77.209); (28.614, 77.209)]).
      { unfold st2, st1. cbn [step fst handlePos path latitude longitude
                               manual withControls initial].
        rewrite setPathUpdater_nil. cbn [lat lon].
        rewrite setPathUpdater_second; [reflexivity |].
        cbn [lat lon]. intros H. injection H as H. lra. }
      rewrite Hpath. apply addRedSegmentNear_two_points.
    + symmetry. apply geb_true. unfold highThreshold, Rmax.
      destruct (Rle_dec 16 (12 + 3)); lra.
Qed.

End HighThreshold.

(** ** The relay *)

Section RelayStore.
Import Js.
Context {Payload : Type} (deviceId : Payload -> option string).

Lemma sliceLast_length (n : Z) (l : list Payload) :
  (0 <= n)%Z -> (Z.of_nat (length (sliceLast n l)) <= n)%Z.
Proof. intros Hn. unfold sliceLast. rewrite length_skipn. lia. Qed.

Lemma sliceLast_suffix (n : Z) (l : list Payload) :
  exists older, l = older ++ sliceLast n l.
Proof.
  unfold sliceLast. eexists. symmetry. apply firstn_skipn.
Qed.

Lemma sliceLast_all (n : Z) (l : list Payload) :
  (Z.of_nat (length l) <= n)%Z -> sliceLast n l = l.
Proof.
  intros Hn. unfold sliceLast.
  now replace (Z.to_nat (Z.of_nat (length l) - n)) with 0%nat by lia.
Qed.

Lemma pushBump_sliceLast (b : Payload) (l : list Payload) :
  Relay.pushBump b l = sliceLast 20000 (l ++ [b]).
Proof.
  unfold Relay.pushBump, spliceHead, sliceLast.
  destruct (Z.gtb_spec (Z.of_nat (length (l ++ [b]))) 20000) as [Hgt | Hle].
  - reflexivity.
  - now replace (Z.to_nat (Z.of_nat (length (l ++ [b])) - 20000))
      with 0%nat by lia.
Qed.

Lemma sliceLast_snoc (n : Z) (h : list Payload) (b : Payload) :
  (1 <= n)%Z -> sliceLast n (sliceLast n h ++ [b]) = sliceLast n (h ++ [b]).
Proof.
  intros Hn. unfold sliceLast.
  set (k := Z.to_nat (Z.of_nat (length h) - n)).
  assert (Hk : (k <= length h)%nat) by lia.
  replace (skipn k h ++ [b]) with (skipn k (h ++ [b]))
    by (rewrite skipn_app; replace (k - length h)%nat with 0%nat by lia;
        reflexivity).
  rewrite skipn_skipn. f_equal.
  rewrite length_skipn, !length_app. simpl. lia.
Qed.

Lemma sliceLast_sliceLast (m n : Z) (l : list Payload) :
  (0 <= m <= n)%Z -> sliceLast m (sliceLast n l) = sliceLast m l.
Proof.
  intros Hmn. unfold sliceLast. rewrite skipn_skipn, length_skipn.
  f_equal. lia.
Qed.

Lemma relay_run_cons e es (st : Relay.State Payload) :
  Relay.run deviceId (e :: es) st
  = (fst (Relay.run deviceId es (fst (Relay.step deviceId e st))),
     snd (Relay.step deviceId e st)
     ++ snd (Relay.run deviceId es (fst (Relay.step deviceId e st)))).
Proof.
  cbn [Relay.run]. destruct (Relay.step deviceId e st) as [st1 out1].
  cbn [fst snd]. now destruct (Relay.run deviceId es st1).
Qed.

(** The store is the last 20000 of everything published so far. *)
Lemma relay_run_bumps (es : list (Relay.Event Payload)) :
  forall (st : Relay.State Payload) (hist : list Payload),
  Relay.bumps st = sliceLast 20000 hist ->
  Relay.bumps (fst (Relay.run deviceId es st))
  = sliceLast 20000 (hist ++ Relay.published es).
Proof.
  induction es as [| e es IH]; intros st hist Hst.
  - cbn. now rewrite app_nil_r.
  - rewrite relay_run_cons. cbn [fst].
    destruct e as [socket | socket name d | socket]; cbn [Relay.published].
    + apply IH. exact Hst.
    + cbn [Relay.step]. unfold Relay.receive.
      destruct (String.eqb name "pos") eqn:Hpos.
      * apply String.eqb_eq in Hpos. subst name. cbn [String.eqb Ascii.eqb Bool.eqb].
        apply IH. exact Hst.
      * destruct (String.eqb name "bump") eqn:Hbump.
        -- replace (hist ++ d :: Relay.published es)
             with ((hist ++ [d]) ++ Relay.published es)
             by (now rewrite <- app_assoc).
           apply IH. cbn [Relay.onBump fst Relay.bumps].
           rewrite pushBump_sliceLast, Hst. apply sliceLast_snoc. lia.
        -- apply IH. exact Hst.
    + apply IH. exact Hst.
Qed.

(** C9.  After any sequence of connections, messages and disconnections,
    the bump store holds the most recent 20000 of the bumps published so
    far (all of them when fewer were published), oldest first, so never
    more than 20000; and the snapshot sent to a socket that connects then
    is the most recent 5000 of the store (all of it when it holds fewer),
    which are the most recent 5000 bumps published. *)
Theorem relay_store_bounded (es : list (Relay.Event Payload))
  (socket : Relay.SocketId) :
  let st := fst (Relay.run deviceId es Relay.initial) in
  Relay.bumps st = sliceLast 20000 (Relay.published es) /\
  (Z.of_nat (length (Relay.bumps st)) <= 20000)%Z /\
  (exists evicted, Relay.published es = evicted ++ Relay.bumps st) /\
  snd (Relay.connection socket st)
  = [Relay.mkDelivery socket "heat:init"
       (Relay.Many (sliceLast 5000 (Relay.bumps st)))] /\
  (Z.of_nat (length (sliceLast 5000 (Relay.bumps st))) <= 5000)%Z /\
  (exists older, Relay.bumps st = older ++ sliceLast 5000 (Relay.bumps st)) /\
  sliceLast 5000 (Relay.bumps st) = sliceLast 5000 (Relay.published es).
Proof.
  intros st.
  assert (Hst : Relay.bumps st = sliceLast 20000 (Relay.published es)).
  { unfold st.
    now rewrite (relay_run_bumps es Relay.initial []) by reflexivity. }
  split; [exact Hst |].
  split; [rewrite Hst; apply sliceLast_length; lia |].
  split; [rewrite Hst; apply sliceLast_suffix |].
  split; [reflexivity |].
  split; [apply sliceLast_length; lia |].
  split; [apply sliceLast_suffix |].
  rewrite Hst. apply sliceLast_sliceLast. lia.
Qed.

End RelayStore.

Section RelayForwarding.
Import Js.
Context {Payload : Type} (deviceId : Payload -> option string).

(** A position is forwarded to every connected socket but the sender. *)
Lemma onPos_recipients socket d (st : Relay.State Payload) :
  map Relay.to (snd (Relay.onPos deviceId socket d st))
  = filter (fun s => negb (Nat.eqb s socket)) (Relay.sockets st) /\
  Forall (fun m => Relay.event m = "pos"%string /\ Relay.data m = Relay.One d)
         (snd (Relay.onPos deviceId socket d st)).
Proof.
  cbn [Relay.onPos snd]. unfold Relay.broadcastEmit. cbn [Relay.sockets].
  split.
  - rewrite map_map. cbn [Relay.to]. apply map_id.
  - apply Forall_forall. intros m Hm. apply in_map_iff in Hm.
    destruct Hm as (s & <- & _). now split.
Qed.

Lemma onPos_skips_sender socket d (st : Relay.State Payload) :
  forall s, In s (map Relay.to (snd (Relay.onPos deviceId socket d st))) <->
            In s (Relay.sockets st) /\ s <> socket.
Proof.
  intros s. rewrite (proj1 (onPos_recipients socket d st)), filter_In.
  rewrite negb_true_iff, Nat.eqb_neq. reflexivity.
Qed.

(** A bump is sent to every connected socket, the sender included. *)
Lemma onBump_recipients socket b (st : Relay.State Payload) :
  map Relay.to (snd (Relay.onBump socket b st)) = Relay.sockets st /\
  Forall (fun m => Relay.event m = "bump"%string /\ Relay.data m = Relay.One b)
         (snd (Relay.onBump socket b st)).
Proof.
  cbn [Relay.onBump snd]. unfold Relay.ioEmit. cbn [Relay.sockets].
  split.
  - rewrite map_map. cbn [Relay.to]. apply map_id.
  - apply Forall_forall. intros m Hm. apply in_map_iff in Hm.
    destruct Hm as (s & <- & _). now split.
Qed.

(** A message under a name other than ["pos"] and ["bump"] changes nothing
    and is forwarded to nobody. *)
Lemma receive_other_name socket name d (st : Relay.State Payload) :
  Relay.receive deviceId socket name d st = (st, []) \/
  name = "pos"%string \/ name = "bump"%string.
Proof.
  unfold Relay.receive.
  destruct (String.eqb_spec name "pos"); [now right; left |].
  destruct (String.eqb_spec name "bump"); [now right; right |].
  now left.
Qed.

End RelayForwarding.

Section RelayAndClients.
Import Js.

(** C6.  Two sockets connect; socket 1 then publishes a position, or a
    bump.  The position goes to socket 2 only.  The bump goes to socket 1,
    its sender, as well as to socket 2. *)
Theorem bump_is_echoed_to_its_sender :
  let pos := Enhanced.PosMsg "dev" 28.6139 77.209 3 1000 in
  let bump := Enhanced.BumpMsg "dev" 28.6139 77.209 1 1000 in
  snd (Relay.run Enhanced.deviceIdOf
         [Relay.Connect 1%nat; Relay.Connect 2%nat;
          Relay.Message 1%nat "pos" pos] Relay.initial)
  = [Relay.mkDelivery 1%nat "heat:init" (Relay.Many []);
     Relay.mkDelivery 2%nat "heat:init" (Relay.Many []);
     Relay.mkDelivery 2%nat "pos" (Relay.One pos)] /\
  snd (Relay.run Enhanced.deviceIdOf
         [Relay.Connect 1%nat; Relay.Connect 2%nat;
          Relay.Message 1%nat "bump" bump] Relay.initial)
  = [Relay.mkDelivery 1%nat "heat:init" (Relay.Many []);
     Relay.mkDelivery 2%nat "heat:init" (Relay.Many []);
     Relay.mkDelivery 1%nat "bump" (Relay.One bump);
     Relay.mkDelivery 2%nat "bump" (Relay.One bump)].
Proof. split; reflexivity. Qed.

(** C10.  The server runs a handler only for messages named ["pos"] or
    ["bump"].  Whatever the motion handlers of the baseline and auto-tuning
    clients send is named ["send-bump"], and the socket listener of those
    clients that takes a record is the one for ["new-bump"].  So a bump
    published by either client leaves the server's bump store, its map of
    live positions and all the rest of its state as they were, and is
    forwarded to nobody. *)
Theorem send_bump_is_not_relayed (g : option AutoTune.Gravity) (now : Z)
  (st : AutoTune.State) (bst : Baseline.State)
  (dev1 : AutoTune.Bump -> option string)
  (dev2 : Baseline.Bump -> option string)
  (rs1 : Relay.State AutoTune.Bump) (rs2 : Relay.State Baseline.Bump)
  (socket : Relay.SocketId) (name : string)
  (b1 : AutoTune.Bump) (b2 : Baseline.Bump) :
  (Relay.receive dev1 socket name b1 rs1 = (rs1, []) \/
   name = "pos"%string \/ name = "bump"%string) /\
  Forall (fun e => fst e = "send-bump"%string /\
                   Relay.receive dev1 socket (fst e) (snd e) rs1 = (rs1, []))
         (snd (AutoTune.handler g now st)) /\
  Forall (fun e => fst e = "send-bump"%string /\
                   Relay.receive dev2 socket (fst e) (snd e) rs2 = (rs2, []))
         (snd (Baseline.handler g now bst)) /\
  (AutoTune.bumps (fst (AutoTune.step (AutoTune.SocketEvent name b1) st))
   = AutoTune.bumps st \/ name = "new-bump"%string) /\
  (Baseline.socketEvent name b2 bst = bst \/ name = "new-bump"%string).
Proof.
  split; [apply receive_other_name |].
  split; [| split; [| split]].
  - unfold AutoTune.handler, AutoTune.classify.
    destruct (AutoTune.fires _ _ _); cbn [snd]; repeat constructor.
  - unfold Baseline.handler, Baseline.classify.
    destruct (Baseline.fires _ _ _); cbn [snd]; repeat constructor.
  - cbn [AutoTune.step].
    destruct (String.eqb_spec name "new-bump"); [now right | now left].
  - unfold Baseline.socketEvent.
    destruct (String.eqb_spec name "new-bump"); [now right | now left].
Qed.

End RelayAndClients.

(** ** The jerk metric *)

Section Jerk.
Import Js Enhanced.

Lemma onMotion_state g t now st :
  let s := sampleOf g in
  let hp := highPass s st in
  let st' := fst (onMotion g t now st) in
  hpState st' = hp /\ recentAccel st' = s /\
  prev st' = mkPrev (ax hp) (ay hp) (az hp) t.
Proof.
  intros s hp st'. unfold st', onMotion. fold s. fold hp.
  destruct (last_lat (lastPosRef st)); [| now repeat split].
  destruct (ltb _ minSpeedMps); [now repeat split |].
  destruct (_ <? minGapMs)%Z; [now repeat split |].
  destruct (gtb _ jerkThresh); now repeat split.
Qed.

Lemma onMotion_sends g t now st :
  snd (onMotion g t now st) = [] \/
  (jerkMag (sampleOf g) t st > jerkThresh /\
   (now - lastBumpTs st >= minGapMs)%Z /\
   exists b, snd (onMotion g t now st) = [("bump"%string, b)]).
Proof.
  unfold onMotion.
  destruct (last_lat (lastPosRef st)); [| now left].
  destruct (ltb _ minSpeedMps); [now left |].
  destruct (Z.ltb_spec (now - lastBumpTs st) minGapMs); [now left |].
  destruct (gtb _ jerkThresh) eqn:Hj; [| now left].
  apply gtb_true in Hj. right.
  split; [exact Hj |]. split; [lia |]. eexists; reflexivity.
Qed.

(** C8.  On every motion sample the high-pass state of each axis becomes
    [0.8 * (hp + sample - previous raw sample)], the raw sample and the
    filtered vector with its time are kept for the next call, and the
    metric is the Euclidean norm of the jerk.  With [dt] the time in seconds
    since the previous sample: when [dt > 0] the jerk of each axis is the
    change of the filtered value divided by [dt]; when [dt <= 0] the jerk of
    every axis is 0 and so is the metric.  A bump is sent only with a metric
    above the jerk threshold. *)
Theorem jerk_metric (g : option AutoTune.Gravity) (t : R) (now : Z)
  (st : State) :
  let s := sampleOf g in
  let st' := fst (onMotion g t now st) in
  let dt := (t - prev_t (prev st)) / 1000 in
  let j := jerk (hpState st') t st in
  hpState st'
  = mkVec (0.8 * (ax (hpState st) + ax s - ax (recentAccel st)))
          (0.8 * (ay (hpState st) + ay s - ay (recentAccel st)))
          (0.8 * (az (hpState st) + az s - az (recentAccel st))) /\
  recentAccel st' = s /\
  prev st' = mkPrev (ax (hpState st')) (ay (hpState st')) (az (hpState st')) t /\
  jerkMag s t st = sqrt (ax j * ax j + ay j * ay j + az j * az j) /\
  ((dt > 0 /\
    j = mkVec ((ax (hpState st') - prev_ax (prev st)) / dt)
              ((ay (hpState st') - prev_ay (prev st)) / dt)
              ((az (hpState st') - prev_az (prev st)) / dt)) \/
   (dt <= 0 /\ j = mkVec 0 0 0 /\ jerkMag s t st = 0)) /\
  (snd (onMotion g t now st) = [] \/
   (jerkMag s t st > jerkThresh /\
    exists b, snd (onMotion g t now st) = [("bump"%string, b)])).
Proof.
  intros s st' dt j.
  destruct (onMotion_state g t now st) as (Hhp & Hraw & Hprev).
  fold s in Hhp, Hraw, Hprev. fold st' in Hhp, Hraw, Hprev.
  split; [rewrite Hhp; reflexivity |].
  split; [exact Hraw |].
  split; [rewrite Hprev, Hhp; reflexivity |].
  assert (Hmag : jerkMag s t st
                 = sqrt (ax j * ax j + ay j * ay j + az j * az j))
    by (unfold j; rewrite Hhp; reflexivity).
  split; [exact Hmag |].
  split.
  - unfold j, jerk. fold dt.
    destruct (gtb dt 0) eqn:Hdt.
    + apply gtb_true in Hdt. left. now split.
    + apply gtb_false in Hdt. right. split; [exact Hdt |].
      split; [reflexivity |].
      rewrite Hmag. unfold j, jerk. fold dt.
      replace (gtb dt 0) with false by (symmetry; apply gtb_false; lra).
      cbn [ax ay az].
      replace (0 * 0 + 0 * 0 + 0 * 0) with 0 by ring. apply sqrt_0.
  - destruct (onMotion_sends g t now st) as [E | (Hj & _ & Hb)];
      [now left | right; now split].
Qed.

End Jerk.

(** * Further properties of the code *)

(** ** The haversine distance *)

Section Haversine.
Import Js Geo.

(** X1.  In [haversineMeters] the number handed to [Math.sqrt] lies
    between 0 and 1 for all coordinates, so its square root, handed to
    [Math.asin], lies between 0 and 1 too, and the distance returned,
    [2 * 6371000] times that arc sine, lies between 0 and half the
    circumference of the sphere, [PI * 6371000] metres. *)
Theorem haversineMeters_range (lat1 lon1 lat2 lon2 : R) :
  let rad := fun degrees : R => degrees * PI / 180 in
  let a := sin (rad (lat2 - lat1) / 2) ^ 2
           + cos (rad lat1) * cos (rad lat2)
             * sin (rad (lon2 - lon1) / 2) ^ 2 in
  0 <= a <= 1 /\
  0 <= sqrt a <= 1 /\
  haversineMeters lat1 lon1 lat2 lon2 = 2 * 6371000 * asin (sqrt a) /\
  0 <= asin (sqrt a) <= PI / 2 /\
  0 <= haversineMeters lat1 lon1 lat2 lon2 <= PI * 6371000.
Proof.
  intros rad a.
  pose proof (haversine_argument_bounds lat1 lon1 lat2 lon2) as Ha.
  change (0 <= a <= 1) in Ha.
  assert (Hs : 0 <= sqrt a <= 1).
  { split; [apply sqrt_pos |].
    rewrite <- sqrt_1. apply sqrt_le_1_alt. lra. }
  pose proof (asin_nonneg (sqrt a) Hs) as H0.
  pose proof (asin_bound (sqrt a)) as [_ H1].
  split; [exact Ha |]. split; [exact Hs |].
  split; [reflexivity |]. split; [now split |].
  change (haversineMeters lat1 lon1 lat2 lon2)
    with (2 * 6371000 * asin (sqrt a)).
  split; nra.
Qed.

(** X2.  The distance does not depend on the order of the two points, and
    the distance from a point to itself is 0. *)
Theorem haversineMeters_symmetric (lat1 lon1 lat2 lon2 : R) :
  haversineMeters lat1 lon1 lat2 lon2 = haversineMeters lat2 lon2 lat1 lon1 /\
  haversineMeters lat1 lon1 lat1 lon1 = 0.
Proof.
  split.
  - unfold haversineMeters.
    replace (toRad (lat1 - lat2) / 2) with (- (toRad (lat2 - lat1) / 2))
      by (unfold toRad; field).
    replace (toRad (lon1 - lon2) / 2) with (- (toRad (lon2 - lon1) / 2))
      by (unfold toRad; field).
    rewrite !sin_neg. do 3 f_equal. ring.
  - unfold haversineMeters.
    replace (toRad (lat1 - lat1) / 2) with 0 by (unfold toRad; field).
    replace (toRad (lon1 - lon1) / 2) with 0 by (unfold toRad; field).
    rewrite sin_0.
    replace (0 ^ 2 + cos (toRad lat1) * cos (toRad lat1) * 0 ^ 2) with 0
      by ring.
    rewrite sqrt_0, asin_0. ring.
Qed.

(** X3.  Between two points of the same longitude, the second one up to
    180 degrees north of the first, the distance is the arc length: the
    radius times the difference of the latitudes in radians. *)
Theorem haversineMeters_along_meridian (lat1 lat2 lon : R) :
  0 <= lat2 - lat1 <= 180 ->
  haversineMeters lat1 lon lat2 lon = 6371000 * toRad (lat2 - lat1).
Proof.
  intros Hd. unfold haversineMeters.
  pose proof PI_RGT_0 as HPI.
  replace (toRad (lon - lon) / 2) with 0 by (unfold toRad; field).
  rewrite sin_0.
  set (x := toRad (lat2 - lat1) / 2).
  assert (Hx : 0 <= x <= PI / 2).
  { unfold x, toRad. split.
    - apply Rmult_le_pos; [| lra]. apply Rmult_le_pos; [| lra].
      apply Rmult_le_pos; lra.
    - assert ((lat2 - lat1) * PI <= 180 * PI)
        by (apply Rmult_le_compat_r; lra).
      lra. }
  replace (sin x ^ 2 + cos (toRad lat1) * cos (toRad lat2) * 0 ^ 2)
    with (sin x ^ 2) by ring.
  rewrite sqrt_pow2 by (apply sin_ge_0; lra).
  rewrite asin_sin by lra.
  unfold x. field.
Qed.

Lemma haversineMeters_along_meridian_witness :
  0 <= 28.614 - 28.6139 <= 180 /\
  haversineMeters 28.6139 77.209 28.614 77.209
  = 6371000 * toRad (28.614 - 28.6139).
Proof.
  assert (H : 0 <= 28.614 - 28.6139 <= 180) by lra.
  split; [exact H |].
  exact (haversineMeters_along_meridian 28.6139 28.614 77.209 H).
Defined.

End Haversine.

(** ** Sessions of the auto-tuning client *)

Section AutoTuneSessions.
Import Js Geo AutoTune AutoTuneSession.

Lemma run_app es1 : forall es2 st,
  run (es1 ++ es2) st
  = (fst (run es2 (fst (run es1 st))),
     snd (run es1 st) ++ snd (run es2 (fst (run es1 st)))).
Proof.
  induction es1 as [| e es1 IH]; intros es2 st.
  - cbn [app run fst snd]. now destruct (run es2 st).
  - cbn [app]. rewrite !run_cons, IH. cbn [fst snd].
    now rewrite app_assoc.
Qed.

Lemma step_speedKmh e st :
  speedKmh (fst (step e st)) = speedKmh st \/
  0 <= speedKmh (fst (step e st)) <= 180.
Proof.
  destruct e; cbn [step]; try (left; reflexivity).
  - destruct (String.eqb name "new-bump"); left; reflexivity.
  - cbn [fst handlePos speedKmh].
    destruct (spdMs c now (lastGeoRef st));
      [right; apply clamp_bounds | left; reflexivity].
  - left. destruct (detecting st); [| reflexivity].
    unfold handler, classify. destruct (fires _ _ _); reflexivity.
Qed.

(** X4.  In every session the speed shown stays between 0 and 180 km/h,
    so in auto mode the tuning in force is always one of the four rows of
    the table. *)
Theorem speed_stays_clamped (es : list Event) :
  let st := fst (run es initial) in
  0 <= speedKmh st <= 180 /\
  (autoTune st = true ->
   In (effectiveCooldown st, effectiveSensitivity st)
      [(2500%Z, 10); (1800%Z, 12); (1200%Z, 14); (800%Z, 16)]).
Proof.
  intros st.
  assert (Hinv : forall es s, 0 <= speedKmh s <= 180 ->
                              0 <= speedKmh (fst (run es s)) <= 180).
  { clear. induction es as [| e es IH]; intros s Hs; [exact Hs |].
    rewrite run_cons. cbn [fst]. apply IH.
    destruct (step_speedKmh e s) as [-> | H]; assumption. }
  split; [apply Hinv; cbn; lra |].
  intros Hauto. unfold effectiveCooldown, effectiveSensitivity.
  rewrite Hauto.
  destruct (getAutoParams_cases (speedKmh st))
    as [[_ ->] | [[_ ->] | [[_ ->] | [_ ->]]]]; cbn; tauto.
Qed.

(** X5.  A fix that carries a native speed [s >= 0] sets the speed shown to
    [s * 3.6] km/h, capped at 180, whatever the previous fix and the time
    since it.  A first fix without such a speed leaves the speed shown as it
    was. *)
Theorem native_speed_preferred (c : Coords) (now : Z) (st : State) (s : R) :
  speed c = Some s -> 0 <= s ->
  speedKmh (handlePos c now st) = Rmin 180 (s * 3.6) /\
  (forall c0 now0 st0,
     lastGeoRef st0 = None -> speed c0 = None ->
     speedKmh (handlePos c0 now0 st0) = speedKmh st0).
Proof.
  intros Hs Hpos. split.
  - cbn [handlePos speedKmh]. rewrite (spdMs_native c now _ s Hs Hpos).
    apply Rmax_right. apply Rmin_glb; lra.
  - intros c0 now0 st0 Hgeo Hnone. cbn [handlePos speedKmh].
    unfold spdMs. now rewrite Hgeo, Hnone.
Qed.

Lemma native_speed_preferred_witness :
  speed (mkCoords 28.6139 77.209 (Some 10)) = Some 10 /\ 0 <= 10 /\
  speedKmh (handlePos (mkCoords 28.6139 77.209 (Some 10)) 1000 initial)
  = Rmin 180 (10 * 3.6).
Proof.
  assert (H1 : speed (mkCoords 28.6139 77.209 (Some 10)) = Some 10)
    by reflexivity.
  assert (H2 : 0 <= 10) by lra.
  split; [exact H1 |]. split; [exact H2 |].
  exact (proj1 (native_speed_preferred _ 1000 initial 10 H1 H2)).
Defined.

Lemma step_position e st :
  position (fst (step e st)) = latestPosition [e] (position st).
Proof.
  destruct e; cbn [step latestPosition]; try reflexivity.
  - destruct (String.eqb name "new-bump"); reflexivity.
  - destruct (detecting st); [| reflexivity].
    unfold handler, classify. destruct (fires _ _ _); reflexivity.
Qed.

Lemma latestPosition_cons e es p :
  latestPosition (e :: es) p = latestPosition es (latestPosition [e] p).
Proof. destruct e; reflexivity. Qed.

Lemma run_position es : forall st,
  position (fst (run es st)) = latestPosition es (position st).
Proof.
  induction es as [| e es IH]; intros st; [reflexivity |].
  rewrite run_cons, latestPosition_cons. cbn [fst].
  now rewrite IH, step_position.
Qed.

(** X6.  A bump is tagged with the position of the last fix received
    before the sample that fired it, or with the position the session
    started from (for [initial], 28.6139, 77.209) when no fix came yet;
    its id is the time of the sample.  At most one bump is sent per
    sample. *)
Theorem bump_tagged_with_latest_fix (es : list Event)
  (g : option Gravity) (now : Z) (st : State) :
  let out := snd (run (es ++ [Motion g now]) st) in
  let sent := snd (step (Motion g now) (fst (run es st))) in
  out = snd (run es st) ++ sent /\
  (length sent <= 1)%nat /\
  Forall (fun e => bump_coords (snd e) = latestPosition es (position st) /\
                   bump_id (snd e) = now)
         sent.
Proof.
  intros out sent. unfold out, sent. clear out sent.
  rewrite run_app. cbn [snd run].
  set (st1 := fst (run es st)).
  assert (Hpos : position st1 = latestPosition es (position st))
    by apply run_position.
  destruct (step (Motion g now) st1) as [st2 sent] eqn:Hstep.
  cbn [fst snd]. rewrite app_nil_r. split; [reflexivity |].
  cbn [step] in Hstep.
  destruct (detecting st1).
  - unfold handler, classify in Hstep.
    destruct (fires _ _ _); injection Hstep as _ <-.
    + split; [cbn; lia |]. constructor; [| constructor].
      cbn [snd bump_coords bump_id setAccel position]. now split.
    + split; [cbn; lia | constructor].
  - injection Hstep as _ <-. split; [cbn; lia | constructor].
Qed.

Lemma step_bumps e st :
  exists newer,
    bumps (fst (step e st)) = newer ++ bumps st /\
    Forall (fun m => fst m = "send-bump"%string /\ In (snd m) newer)
           (snd (step e st)).
Proof.
  destruct e; cbn [step];
    try (exists []; split; [reflexivity | constructor]).
  - destruct (String.eqb name "new-bump").
    + exists [b]. split; [reflexivity | constructor].
    + exists []. split; [reflexivity | constructor].
  - destruct (detecting st);
      [| exists []; split; [reflexivity | constructor]].
    unfold handler, classify. destruct (fires _ _ _).
    + eexists [_]. split; [reflexivity |].
      constructor; [| constructor]. split; [reflexivity | now left].
    + exists []. split; [reflexivity | constructor].
Qed.

(** X7.  The list of bumps shown only grows, at its head: at the end of a
    session it is the list at the start with newer records in front.
    Everything the session sent is named ["send-bump"] and is among those
    newer records. *)
Theorem shown_bumps_grow (es : list Event) (st : State) :
  exists newer,
    bumps (fst (run es st)) = newer ++ bumps st /\
    Forall (fun m => fst m = "send-bump"%string /\ In (snd m) newer)
           (snd (run es st)).
Proof.
  revert st. induction es as [| e es IH]; intros st.
  - exists []. split; [reflexivity | constructor].
  - rewrite run_cons. cbn [fst snd].
    destruct (step_bumps e st) as (n1 & E1 & F1).
    destruct (IH (fst (step e st))) as (n2 & E2 & F2).
    exists (n2 ++ n1). split.
    + rewrite E2, E1. now rewrite app_assoc.
    + apply Forall_app. split.
      * eapply Forall_impl; [| exact F1]. intros m [Hn Hin].
        split; [exact Hn |]. apply in_or_app. now right.
      * eapply Forall_impl; [| exact F2]. intros m [Hn Hin].
        split; [exact Hn |]. apply in_or_app. now left.
Qed.

Lemma step_idle e st :
  detecting st = false -> startsDetection e = false ->
  detecting (fst (step e st)) = false /\
  snd (step e st) = [] /\
  lastBumpRef (fst (step e st)) = lastBumpRef st /\
  redSegments (fst (step e st)) = redSegments st.
Proof.
  intros Hd Hs. destruct e; cbn [step]; try (now repeat split).
  - destruct (String.eqb name "new-bump"); now repeat split.
  - rewrite Hd. now repeat split.
Qed.

(** X8.  While detection is off, motion samples do nothing: in a session
    that starts with detection off and never switches it on, nothing is
    sent, no red segment is added and the time of the last bump is left as
    it was.  A motion permission request that throws, or that answers
    anything other than ["granted"], leaves the state as it was, detection
    off; an answer ["granted"], or a browser without the request, switches
    detection on. *)
Theorem nothing_detected_while_off (es : list Event) (st : State)
  (res : string) :
  detecting st = false ->
  forallb (fun e => negb (startsDetection e)) es = true ->
  snd (run es st) = [] /\
  detecting (fst (run es st)) = false /\
  lastBumpRef (fst (run es st)) = lastBumpRef st /\
  redSegments (fst (run es st)) = redSegments st /\
  startDetection Throws st = st /\
  startDetection (Answers "denied") st = st /\
  (startDetection (Answers res) st = st \/ res = "granted"%string) /\
  detecting (startDetection (Answers "granted") st) = true /\
  detecting (startDetection NoRequestPermission st) = true.
Proof.
  intros Hd Hes.
  assert (H : snd (run es st) = [] /\
              detecting (fst (run es st)) = false /\
              lastBumpRef (fst (run es st)) = lastBumpRef st /\
              redSegments (fst (run es st)) = redSegments st).
  { revert st Hd Hes. induction es as [| e es IH]; intros st Hd Hes.
    - now repeat split.
    - cbn [forallb] in Hes. apply andb_true_iff in Hes.
      destruct Hes as [He Hes]. apply negb_true_iff in He.
      destruct (step_idle e st Hd He) as (Hd1 & Ho1 & Hl1 & Hr1).
      destruct (IH (fst (step e st)) Hd1 Hes) as (Ho & Hd2 & Hl & Hr).
      rewrite run_cons. cbn [fst snd]. rewrite Ho1, Ho, Hl, Hr.
      now repeat split. }
  destruct H as (H1 & H2 & H3 & H4).
  split; [exact H1 |]. split; [exact H2 |]. split; [exact H3 |].
  split; [exact H4 |]. split; [reflexivity |]. split; [reflexivity |].
  split; [| split; reflexivity].
  unfold startDetection, requestMotionPermission.
  destruct (String.eqb_spec res "granted"); [now right | now left].
Qed.

Lemma nothing_detected_while_off_witness :
  snd (run [Motion (axisSample 20) 100000;
            Pos (mkCoords 28.6139 77.209 None) 101000;
            Motion (axisSample 25) 200000]
           (startDetection (Answers "prompt") initial)) = [] /\
  (startDetection (Answers "prompt") initial = initial \/
   "prompt"%string = "granted"%string).
Proof.
  destruct (nothing_detected_while_off
              [Motion (axisSample 20) 100000;
               Pos (mkCoords 28.6139 77.209 None) 101000;
               Motion (axisSample 25) 200000]
              (startDetection (Answers "prompt") initial) "prompt"
              eq_refl eq_refl)
    as (Hout & _ & _ & _ & _ & _ & Hres & _).
  split; [exact Hout | exact Hres].
Defined.

End AutoTuneSessions.

Section RedSegmentEnds.
Import Js Geo AutoTune AutoTuneSession.

Lemma haversineMeters_self (lat lon : R) : haversineMeters lat lon lat lon = 0.
Proof.
  unfold haversineMeters.
  replace (toRad (lat - lat) / 2) with 0 by (unfold toRad; field).
  replace (toRad (lon - lon) / 2) with 0 by (unfold toRad; field).
  rewrite sin_0.
  replace (0 ^ 2 + cos (toRad lat) * cos (toRad lat) * 0 ^ 2) with 0 by ring.
  rewrite sqrt_0, asin_0. ring.
Qed.

Lemma lastOf_app_cons {A} (l1 l2 : list A) :
  l2 <> [] -> lastOf (l1 ++ l2) = lastOf l2.
Proof.
  intros Hne. destruct (exists_last Hne) as (pre & x & ->).
  now rewrite app_assoc, !lastOf_snoc.
Qed.

Lemma red_segment_shape centerLat centerLon (path : list Point)
  (segs : list (list Point)) :
  addRedSegmentNear centerLat centerLon path segs = segs \/
  exists older b newer,
    path = older ++ b :: newer /\ newer <> [] /\
    addRedSegmentNear centerLat centerLon path segs
    = segs ++ [newer ++ [(centerLat, centerLon)]].
Proof.
  destruct (Nat.lt_ge_cases (length path) 2) as [Hshort | Hlong].
  - left. now apply addRedSegmentNear_short.
  - right.
    destruct (addRedSegmentNear_split centerLat centerLon path segs Hlong)
      as (older & b & newer & acc & Hsplit & Hne & Hadd & _).
    now exists older, b, newer.
Qed.

Lemma step_coherent e st : coherent st -> coherent (fst (step e st)).
Proof.
  intros Hc. destruct e; cbn [step]; try exact Hc.
  - destruct (String.eqb name "new-bump"); exact Hc.
  - right. cbn [fst handlePos path position lat lon].
    apply setPathUpdater_last.
  - destruct (detecting st); [| exact Hc].
    unfold handler, classify. destruct (fires _ _ _); exact Hc.
Qed.

Lemma addRedSegmentNear_endsDoubled st :
  coherent st ->
  Forall endsDoubled (redSegments st) ->
  Forall endsDoubled
    (addRedSegmentNear (lat (position st)) (lon (position st))
                       (path st) (redSegments st)).
Proof.
  intros Hc Hall.
  destruct (red_segment_shape (lat (position st)) (lon (position st))
              (path st) (redSegments st))
    as [-> | (older & b & newer & Hsplit & Hne & ->)]; [exact Hall |].
  apply Forall_app. split; [exact Hall |]. constructor; [| constructor].
  destruct Hc as [Hnil | Hlast].
  - rewrite Hnil in Hsplit. now destruct older.
  - rewrite Hsplit in Hlast.
    change (older ++ b :: newer) with (older ++ [b] ++ newer) in Hlast.
    rewrite app_assoc, lastOf_app_cons in Hlast by exact Hne.
    destruct (exists_last Hne) as (pre & p & ->).
    rewrite lastOf_snoc in Hlast. injection Hlast as ->.
    exists pre, (lat (position st), lon (position st)).
    now rewrite <- app_assoc.
Qed.

Lemma step_endsDoubled e st :
  coherent st -> Forall endsDoubled (redSegments st) ->
  Forall endsDoubled (redSegments (fst (step e st))).
Proof.
  intros Hc Hall. destruct e; cbn [step]; try exact Hall.
  - destruct (String.eqb name "new-bump"); exact Hall.
  - destruct (detecting st); [| exact Hall].
    unfold handler, classify. destruct (fires _ _ _); [| exact Hall].
    cbn [fst redSegments].
    destruct (geb _ _); [| exact Hall].
    apply (addRedSegmentNear_endsDoubled (setAccel (linearOf g) st));
      assumption.
Qed.

(** X9.  In every session the newest point of the path, once there is
    one, is the position shown; so every red segment ends with the same
    point twice, the newest path point and the event location, and its last
    leg has no length. *)
Theorem red_segments_end_doubled (es : list Event) :
  let st := fst (run es initial) in
  coherent st /\
  Forall endsDoubled (redSegments st) /\
  Forall (fun seg => exists pts p,
            seg = pts ++ [p; p] /\
            backLength seg = backLength (pts ++ [p]))
         (redSegments st).
Proof.
  intros st.
  assert (Hinv : forall es s,
             coherent s -> Forall endsDoubled (redSegments s) ->
             coherent (fst (run es s)) /\
             Forall endsDoubled (redSegments (fst (run es s)))).
  { clear. induction es as [| e es IH]; intros s Hc Hall; [now split |].
    rewrite run_cons. cbn [fst].
    apply IH; [now apply step_coherent | now apply step_endsDoubled]. }
  destruct (Hinv es initial) as [Hc Hall]; [now left | constructor |].
  fold st in Hc, Hall. split; [exact Hc |]. split; [exact Hall |].
  eapply Forall_impl; [| exact Hall].
  intros seg (pts & p & ->). exists pts, p. split; [reflexivity |].
  change (pts ++ [p; p]) with (pts ++ [p] ++ [p]).
  rewrite app_assoc, backLength_snoc.
  rewrite haversineMeters_self.
  ring.
Qed.

End RedSegmentEnds.

(** ** Spacing of the baseline client's bumps *)

Section BaselineSpacing.
Import Js Baseline Timing.

(** [toFixed] moves a number that is not negative by less than 0.005 down
    at 2 decimals. *)
Lemma toFixed2_above (x : R) : 0 <= x -> toFixed 2 x > x - 0.005.
Proof.
  intros Hx. unfold toFixed.
  destruct (geb (Rabs x) (10 ^ 21)); [lra |].
  replace (ltb x 0) with false by (symmetry; apply ltb_false; lra).
  pose proof (base_Int_part (x * 10 ^ 2 + / 2)) as [_ Hfl].
  replace (10 ^ 2) with 100 in * by ring. lra.
Qed.

(** What one callback of a session without slider moves does. *)
Lemma Baseline_step_effect e st :
  movesSlider e = false ->
  sensitivity (fst (step e st)) = sensitivity st /\
  cooldownMs (fst (step e st)) = cooldownMs st /\
  position (fst (step e st)) = latestPosition [e] (position st) /\
  ((snd (step e st) = [] /\
    lastBumpRef (fst (step e st)) = lastBumpRef st) \/
   (exists b linear,
      snd (step e st) = [("send-bump"%string, b)] /\
      bump_accel b = toFixed 2 linear /\
      linear > sensitivity st /\
      bump_accel b > sensitivity st - 0.005 /\
      bump_coords b = position st /\
      (bump_id b - lastBumpRef st > cooldownMs st)%Z /\
      lastBumpRef (fst (step e st)) = bump_id b)).
Proof.
  intros Hslider.
  destruct e; cbn [step latestPosition]; try discriminate Hslider;
    try (repeat split; now left).
  - unfold socketEvent. destruct (String.eqb name "new-bump");
      repeat split; now left.
  - destruct (detecting st); [| repeat split; now left].
    unfold handler, classify.
    match goal with |- context [fires ?m now ?s] =>
      destruct (fires m now s) eqn:Hf end; [| repeat split; now left].
    apply Baseline_fires_iff in Hf. destruct Hf as [Hm Ht].
    cbn [sensitivity cooldownMs lastBumpRef] in Hm, Ht.
    repeat split. right. do 2 eexists.
    split; [reflexivity |]. cbn [bump_accel bump_coords bump_id fst].
    split; [reflexivity |]. split; [exact Hm |].
    split; [| split; [reflexivity | split; [exact Ht | reflexivity]]].
    match goal with |- toFixed 2 ?l > _ =>
      pose proof (toFixed2_above l (Rabs_pos _)) end.
    lra.
Qed.

Lemma Baseline_run_cons e es st :
  run (e :: es) st
  = (fst (run es (fst (step e st))),
     snd (step e st) ++ snd (run es (fst (step e st)))).
Proof.
  cbn [run]. destruct (step e st) as [st1 out1].
  cbn [fst snd]. now destruct (run es st1).
Qed.

Lemma Baseline_latestPosition_cons e es p :
  latestPosition (e :: es) p = latestPosition es (latestPosition [e] p).
Proof. destruct e; reflexivity. Qed.

(** X10.  In a session of the baseline client in which the sliders are
    left alone (fixes, motion samples, socket events, start and stop), every
    bump sent comes more than [cooldownMs] after the bump before it (the
    first one more than [cooldownMs] after the last bump of the state the
    session starts from), and its [accel] is the 2-decimal rendering of a
    metric above the sensitivity, so it is above the sensitivity less
    0.005.  The position shown at the end is that of the last fix, and a
    bump carries the position shown when its sample arrived. *)
Theorem baseline_bumps_spaced (es : list Event) (st : State)
  (g : option Gravity) (now : Z) :
  forallb (fun e => negb (movesSlider e)) es = true ->
  let out := snd (run es st) in
  spacedOver (cooldownMs st) (lastBumpRef st)
             (map (fun e => bump_id (snd e)) out) /\
  Forall (fun e => fst e = "send-bump"%string /\
                   (exists linear,
                      linear > sensitivity st /\
                      bump_accel (snd e) = toFixed 2 linear) /\
                   bump_accel (snd e) > sensitivity st - 0.005)
         out /\
  position (fst (run es st)) = latestPosition es (position st) /\
  Forall (fun e => bump_coords (snd e) = latestPosition es (position st) /\
                   bump_id (snd e) = now)
         (snd (step (Motion g now) (fst (run es st)))).
Proof.
  intros Hes out. unfold out. clear out.
  assert (Hinv : forall es st,
             forallb (fun e => negb (movesSlider e)) es = true ->
             spacedOver (cooldownMs st) (lastBumpRef st)
               (map (fun e => bump_id (snd e)) (snd (run es st))) /\
             Forall (fun e => fst e = "send-bump"%string /\
                              (exists linear,
                                 linear > sensitivity st /\
                                 bump_accel (snd e) = toFixed 2 linear) /\
                              bump_accel (snd e) > sensitivity st - 0.005)
                    (snd (run es st)) /\
             position (fst (run es st)) = latestPosition es (position st)).
  { clear. induction es as [| e es IH]; intros st Hes.
    - cbn. split; [exact I |]. split; [constructor | reflexivity].
    - cbn [forallb] in Hes. apply andb_true_iff in Hes.
      destruct Hes as [He Hes]. apply negb_true_iff in He.
      rewrite Baseline_run_cons, (Baseline_latestPosition_cons e es).
      cbn [fst snd].
      destruct (Baseline_step_effect e st He)
        as (Hs & Hc & Hp
            & [[Hout Hlast]
              | (b & linear & Hout & Hacc & Hlin & Habove & Hco & Ht & Hlast)]);
        destruct (IH (fst (step e st)) Hes) as (Hsp & Hall & Hpos);
        rewrite Hs, Hc, Hp, Hlast in *; rewrite Hout.
      + cbn [app]. now repeat split.
      + cbn [app map snd]. split; [now split |]. split; [| exact Hpos].
        constructor; [| exact Hall]. cbn [fst snd].
        split; [reflexivity |]. split; [now exists linear | exact Habove]. }
  destruct (Hinv es st Hes) as (Hsp & Hall & Hpos).
  split; [exact Hsp |]. split; [exact Hall |]. split; [exact Hpos |].
  cbn [step]. destruct (detecting (fst (run es st))); [| constructor].
  unfold handler, classify.
  destruct (fires _ _ _); [| constructor].
  constructor; [| constructor]. cbn [snd bump_coords bump_id position].
  now split.
Qed.

Lemma baseline_bumps_spaced_witness :
  spacedOver 2000 0
    (map (fun e => bump_id (snd e))
       (snd (run [SetDetecting true; Pos 28.614 77.209;
                  Motion (AutoTune.axisSample 20) 100000;
                  Motion (AutoTune.axisSample 25) 100500;
                  Pos 28.615 77.209;
                  Motion (AutoTune.axisSample 20) 103000]
                 initial))).
Proof.
  exact (proj1 (baseline_bumps_spaced
                  [SetDetecting true; Pos 28.614 77.209;
                   Motion (AutoTune.axisSample 20) 100000;
                   Motion (AutoTune.axisSample 25) 100500;
                   Pos 28.615 77.209;
                   Motion (AutoTune.axisSample 20) 103000]
                  initial None 0 eq_refl)).
Defined.

End BaselineSpacing.

(** ** The relay's map of live positions *)

Section RelayPositions.
Import Js.
Context {Payload : Type} (deviceId : Payload -> option string).

Lemma keyEqb_eq (a b : option string) : Relay.keyEqb a b = true <-> a = b.
Proof.
  destruct a as [x |], b as [y |]; cbn; try (split; congruence).
  rewrite String.eqb_eq. split; congruence.
Qed.

Lemma mapSet_keys (k : option string) (v : Payload) m :
  forall k', In k' (map fst (Relay.mapSet k v m)) <->
             k' = k \/ In k' (map fst m).
Proof.
  induction m as [| [k0 v0] m IH]; intros k'; cbn [Relay.mapSet].
  - cbn. split; [intros [<- | []]; now left | intros [-> | []]; now left].
  - destruct (Relay.keyEqb k k0) eqn:Hk.
    + apply keyEqb_eq in Hk. subst k0. cbn. intuition congruence.
    + cbn [map fst In]. rewrite IH. tauto.
Qed.

Lemma mapSet_NoDup (k : option string) (v : Payload) m :
  NoDup (map fst m) -> NoDup (map fst (Relay.mapSet k v m)).
Proof.
  induction m as [| [k0 v0] m IH]; intros Hnd; cbn [Relay.mapSet].
  - cbn. constructor; [intros [] | constructor].
  - destruct (Relay.keyEqb k k0) eqn:Hk.
    + apply keyEqb_eq in Hk. subst k0. exact Hnd.
    + cbn [map fst] in *. inversion Hnd as [| ? ? Hnotin Hnd']. subst.
      constructor; [| now apply IH].
      rewrite mapSet_keys. intros [-> | Hin]; [| contradiction].
      assert (Relay.keyEqb k k = true) by now apply keyEqb_eq.
      congruence.
Qed.

Lemma mapSet_In (k : option string) (v : Payload) m :
  In (k, v) (Relay.mapSet k v m).
Proof.
  induction m as [| [k0 v0] m IH]; cbn [Relay.mapSet]; [now left |].
  destruct (Relay.keyEqb k k0); [now left | now right].
Qed.

Lemma NoDup_keys_unique (m : list (option string * Payload)) k v v' :
  NoDup (map fst m) -> In (k, v) m -> In (k, v') m -> v = v'.
Proof.
  induction m as [| [k0 v0] m IH]; intros Hnd Hv Hv'; [destruct Hv |].
  cbn [map fst] in Hnd. inversion Hnd as [| ? ? Hnotin Hnd']. subst.
  destruct Hv as [Hv | Hv], Hv' as [Hv' | Hv'].
  - congruence.
  - injection Hv as -> ->. exfalso. apply Hnotin.
    apply (in_map fst) in Hv'. exact Hv'.
  - injection Hv' as -> ->. exfalso. apply Hnotin.
    apply (in_map fst) in Hv. exact Hv.
  - now apply IH.
Qed.

Lemma mapSet_other (k k' : option string) (v v' : Payload) m :
  k' <> k -> (In (k', v') (Relay.mapSet k v m) <-> In (k', v') m).
Proof.
  intros Hne. induction m as [| [k0 v0] m IH]; cbn [Relay.mapSet].
  - cbn. split; [intros [H | []]; congruence | intros []].
  - destruct (Relay.keyEqb k k0) eqn:Hk.
    + apply keyEqb_eq in Hk. subst k0. cbn.
      split; (intros [H | H]; [congruence | now right]).
    + cbn [In]. rewrite IH. reflexivity.
Qed.

Lemma relay_step_positions (e : Relay.Event Payload) st :
  Relay.livePositions (fst (Relay.step deviceId e st))
  = Relay.livePositions st \/
  exists socket d,
    e = Relay.Message socket "pos" d /\
    Relay.livePositions (fst (Relay.step deviceId e st))
    = Relay.mapSet (deviceId d) d (Relay.livePositions st).
Proof.
  destruct e as [socket | socket name d | socket]; cbn [Relay.step];
    try (now left).
  unfold Relay.receive.
  destruct (String.eqb_spec name "pos") as [-> | _].
  - right. now exists socket, d.
  - left. now destruct (String.eqb name "bump").
Qed.

Lemma relay_run_app es1 : forall es2 (st : Relay.State Payload),
  Relay.run deviceId (es1 ++ es2) st
  = (fst (Relay.run deviceId es2 (fst (Relay.run deviceId es1 st))),
     snd (Relay.run deviceId es1 st)
     ++ snd (Relay.run deviceId es2 (fst (Relay.run deviceId es1 st)))).
Proof.
  induction es1 as [| e es1 IH]; intros es2 st.
  - cbn [app Relay.run fst snd]. now destruct (Relay.run deviceId es2 st).
  - cbn [app]. rewrite !relay_run_cons, IH. cbn [fst snd].
    now rewrite app_assoc.
Qed.

Lemma relay_run_positions es : forall st : Relay.State Payload,
  NoDup (map fst (Relay.livePositions st)) ->
  NoDup (map fst (Relay.livePositions (fst (Relay.run deviceId es st)))) /\
  (forall k, In k (map fst (Relay.livePositions st)) ->
             In k (map fst (Relay.livePositions
                              (fst (Relay.run deviceId es st))))).
Proof.
  induction es as [| e es IH]; intros st Hnd; [now split |].
  rewrite relay_run_cons. cbn [fst].
  destruct (relay_step_positions e st) as [E | (socket & d & _ & E)].
  - rewrite <- E in Hnd. destruct (IH _ Hnd) as [H1 H2].
    split; [exact H1 |]. intros k Hk. apply H2. now rewrite E.
  - assert (Hnd' : NoDup (map fst (Relay.livePositions
                                     (fst (Relay.step deviceId e st)))))
      by (rewrite E; now apply mapSet_NoDup).
    destruct (IH _ Hnd') as [H1 H2]. split; [exact H1 |].
    intros k Hk. apply H2. rewrite E. apply mapSet_keys. now right.
Qed.

(** X11.  After any run of the server, the map of live positions holds
    one entry per device id.  Right after a ["pos"] message the entry of
    its device id is that message, whatever was stored for it before, and
    the entries of the other device ids are as they were. *)
Theorem live_position_is_latest (es : list (Relay.Event Payload))
  (socket : Relay.SocketId) (d : Payload) :
  let before := fst (Relay.run deviceId es Relay.initial) in
  let after :=
    fst (Relay.run deviceId (es ++ [Relay.Message socket "pos" d])
                   Relay.initial) in
  NoDup (map fst (Relay.livePositions after)) /\
  In (deviceId d, d) (Relay.livePositions after) /\
  (forall d', In (deviceId d, d') (Relay.livePositions after) -> d' = d) /\
  (forall k d', k <> deviceId d ->
     (In (k, d') (Relay.livePositions after) <->
      In (k, d') (Relay.livePositions before))).
Proof.
  intros before after.
  assert (Hnd : NoDup (map fst (Relay.livePositions before))).
  { apply relay_run_positions. constructor. }
  assert (E : Relay.livePositions after
              = Relay.mapSet (deviceId d) d (Relay.livePositions before)).
  { unfold after. rewrite relay_run_app. reflexivity. }
  assert (Hnd' : NoDup (map fst (Relay.livePositions after)))
    by (rewrite E; now apply mapSet_NoDup).
  split; [exact Hnd' |].
  assert (Hin : In (deviceId d, d) (Relay.livePositions after))
    by (rewrite E; apply mapSet_In).
  split; [exact Hin |]. split.
  - intros d' Hd'. symmetry.
    now apply (NoDup_keys_unique _ (deviceId d) d d' Hnd').
  - intros k d' Hk. rewrite E. now apply mapSet_other.
Qed.

Lemma relay_run_keys es : forall (st : Relay.State Payload),
  incl (map fst (Relay.livePositions st))
       (map fst (Relay.livePositions (fst (Relay.run deviceId es st)))).
Proof.
  induction es as [| e es IH]; intros st; [apply incl_refl |].
  rewrite relay_run_cons. cbn [fst].
  eapply incl_tran; [| apply IH].
  destruct (relay_step_positions e st) as [-> | (socket & d & _ & ->)];
    [apply incl_refl |].
  intros k Hk. apply mapSet_keys. now right.
Qed.

(** X12.  The server never forgets a device: a device id that has an entry
    in the map of live positions keeps one through every later connection,
    message and disconnection, and only ["pos"] messages change the map. *)
Theorem live_positions_never_removed (es : list (Relay.Event Payload))
  (e : Relay.Event Payload) (st : Relay.State Payload) :
  incl (map fst (Relay.livePositions st))
       (map fst (Relay.livePositions (fst (Relay.run deviceId es st)))) /\
  (Relay.livePositions (fst (Relay.step deviceId e st))
   = Relay.livePositions st \/
   exists socket d, e = Relay.Message socket "pos" d).
Proof.
  split; [apply relay_run_keys |].
  destruct (relay_step_positions e st) as [E | (socket & d & E & _)];
    [now left | right; now exists socket, d].
Qed.

(** X13.  A ["pos"] message is forwarded as it is, under the name
    ["pos"], once to every connected socket other than the sender, and to
    nobody else.  A ["bump"] message is forwarded as it is, under the name
    ["bump"], once to every connected socket, the sender among them when it
    is connected. *)
Theorem relay_forwarding (socket : Relay.SocketId) (d : Payload)
  (st : Relay.State Payload) :
  let posOut := snd (Relay.receive deviceId socket "pos" d st) in
  let bumpOut := snd (Relay.receive deviceId socket "bump" d st) in
  map Relay.to posOut
  = filter (fun s => negb (Nat.eqb s socket)) (Relay.sockets st) /\
  (forall s, In s (map Relay.to posOut) <->
             In s (Relay.sockets st) /\ s <> socket) /\
  Forall (fun m => Relay.event m = "pos"%string /\ Relay.data m = Relay.One d)
         posOut /\
  map Relay.to bumpOut = Relay.sockets st /\
  Forall (fun m => Relay.event m = "bump"%string /\ Relay.data m = Relay.One d)
         bumpOut /\
  Relay.sockets (fst (Relay.receive deviceId socket "pos" d st))
  = Relay.sockets st /\
  Relay.sockets (fst (Relay.receive deviceId socket "bump" d st))
  = Relay.sockets st.
Proof.
  cbv zeta.
  change (Relay.receive deviceId socket "pos" d st)
    with (Relay.onPos deviceId socket d st).
  change (Relay.receive deviceId socket "bump" d st)
    with (Relay.onBump socket d st).
  destruct (onPos_recipients deviceId socket d st) as [Hp1 Hp2].
  destruct (onBump_recipients socket d st) as [Hb1 Hb2].
  split; [exact Hp1 |].
  split; [apply onPos_skips_sender |].
  split; [exact Hp2 |]. split; [exact Hb1 |]. split; [exact Hb2 |].
  split; reflexivity.
Qed.

(** X14.  While at most 5000 bumps have been published, a socket that
    connects is sent every one of them, in the order they were
    published. *)
Theorem snapshot_complete_under_5000 (es : list (Relay.Event Payload))
  (socket : Relay.SocketId) :
  (Z.of_nat (length (Relay.published es)) <= 5000)%Z ->
  snd (Relay.connection socket (fst (Relay.run deviceId es Relay.initial)))
  = [Relay.mkDelivery socket "heat:init" (Relay.Many (Relay.published es))].
Proof.
  intros Hlen. cbn [Relay.connection snd].
  rewrite (relay_run_bumps deviceId es Relay.initial []) by reflexivity.
  cbn [app]. rewrite sliceLast_sliceLast by lia.
  now rewrite sliceLast_all by exact Hlen.
Qed.

End RelayPositions.

Lemma snapshot_complete_under_5000_witness :
  snd (Relay.connection 3%nat
         (fst (Relay.run Enhanced.deviceIdOf
                 [Relay.Connect 1%nat;
                  Relay.Message 1%nat "bump"
                    (Enhanced.BumpMsg "dev" 28.6139 77.209 1 1000);
                  Relay.Message 1%nat "bump"
                    (Enhanced.BumpMsg "dev" 28.614 77.209 2 3000)]
                 Relay.initial)))
  = [Relay.mkDelivery 3%nat "heat:init"
       (Relay.Many [Enhanced.BumpMsg "dev" 28.6139 77.209 1 1000;
                    Enhanced.BumpMsg "dev" 28.614 77.209 2 3000])].
Proof.
  exact (snapshot_complete_under_5000 Enhanced.deviceIdOf
           [Relay.Connect 1%nat;
            Relay.Message 1%nat "bump"
              (Enhanced.BumpMsg "dev" 28.6139 77.209 1 1000);
            Relay.Message 1%nat "bump"
              (Enhanced.BumpMsg "dev" 28.614 77.209 2 3000)]
           3%nat ltac:(cbn; lia)).
Defined.

(** ** The jerk-based client *)

Section JerkClient.
Import Js Enhanced Timing.

(** What one call of [onMotion] sends and what it does to the time of the
    previous bump. *)
Lemma onMotion_effect g t now st :
  (snd (onMotion g t now st) = [] /\
   lastBumpTs (fst (onMotion g t now st)) = lastBumpTs st) \/
  (exists deviceId lat lng score,
     snd (onMotion g t now st)
     = [("bump"%string, BumpMsg deviceId lat lng score now)] /\
     (now - lastBumpTs st >= minGapMs)%Z /\
     lastBumpTs (fst (onMotion g t now st)) = now).
Proof.
  unfold onMotion.
  destruct (last_lat (lastPosRef st)) as [lat |]; [| now left].
  destruct (ltb (last_speed (lastPosRef st)) minSpeedMps); [now left |].
  destruct (Z.ltb_spec (now - lastBumpTs st) minGapMs); [now left |].
  destruct (gtb (jerkMag (sampleOf g) t st) jerkThresh); [| now left].
  right. do 4 eexists. split; [reflexivity |]. split; [lia | reflexivity].
Qed.

(** X15.  A bump sent by [onMotion] carries the device id, the coordinates
    of the last fix, the time of the sample and a score above 1 and at most
    5; it is sent only when a fix is known whose speed is at least
    [minSpeedMps], at least [minGapMs] after the previous bump, and it
    becomes the previous bump.  In every other case nothing is sent and the
    time of the previous bump is kept.  The device id and the last fix are
    never touched. *)
Theorem jerk_bump_content (g : option AutoTune.Gravity) (t : R) (now : Z)
  (st : State) :
  deviceIdRef (fst (onMotion g t now st)) = deviceIdRef st /\
  lastPosRef (fst (onMotion g t now st)) = lastPosRef st /\
  ((snd (onMotion g t now st) = [] /\
    lastBumpTs (fst (onMotion g t now st)) = lastBumpTs st) \/
   (exists lat score,
      last_lat (lastPosRef st) = Some lat /\
      snd (onMotion g t now st)
      = [("bump"%string,
          BumpMsg (deviceIdRef st) lat (orZero (last_lng (lastPosRef st)))
                  score now)] /\
      score = Rmin 5 ((jerkMag (sampleOf g) t st - jerkThresh) * 0.8 + 1) /\
      1 < score <= 5 /\
      last_speed (lastPosRef st) >= minSpeedMps /\
      (now - lastBumpTs st >= minGapMs)%Z /\
      lastBumpTs (fst (onMotion g t now st)) = now)).
Proof.
  unfold onMotion.
  destruct (last_lat (lastPosRef st)) as [lat |] eqn:Hlat;
    [| repeat split; now left].
  destruct (ltb (last_speed (lastPosRef st)) minSpeedMps) eqn:Hsp;
    [repeat split; now left |].
  destruct (Z.ltb_spec (now - lastBumpTs st) minGapMs);
    [repeat split; now left |].
  destruct (gtb (jerkMag (sampleOf g) t st) jerkThresh) eqn:Hj;
    [| repeat split; now left].
  apply gtb_true in Hj. apply ltb_false in Hsp.
  repeat split. right. exists lat. eexists.
  split; [reflexivity |]. split; [reflexivity |]. split; [reflexivity |].
  split; [| split; [lra | split; [lia | reflexivity]]].
  unfold jerkThresh in *. split.
  - apply Rmin_glb_lt; lra.
  - apply Rmin_l.
Qed.

(** The shape of what [onMotion] sends: nothing, or one bump with a score
    above 1 and at most 5. *)
Lemma jerk_bump_shape g t now st :
  snd (onMotion g t now st) = [] \/
  exists deviceId lat lng score,
    snd (onMotion g t now st)
    = [("bump"%string, BumpMsg deviceId lat lng score now)] /\
    1 < score <= 5.
Proof.
  unfold onMotion.
  destruct (last_lat (lastPosRef st)) as [lat |]; [| now left].
  destruct (ltb (last_speed (lastPosRef st)) minSpeedMps); [now left |].
  destruct (now - lastBumpTs st <? minGapMs)%Z; [now left |].
  destruct (gtb (jerkMag (sampleOf g) t st) jerkThresh) eqn:Hj; [| now left].
  apply gtb_true in Hj. right. do 4 eexists. split; [reflexivity |].
  unfold jerkThresh in *. split; [apply Rmin_glb_lt; lra | apply Rmin_l].
Qed.

End JerkClient.

Section JerkSessions.
Import Js Enhanced EnhancedApp Timing.

Lemma app_run_cons e es app :
  run (e :: es) app
  = (fst (run es (fst (step e app))),
     snd (step e app) ++ snd (run es (fst (step e app)))).
Proof.
  cbn [run]. destruct (step e app) as [a1 o1]. cbn [fst snd].
  now destruct (run es a1).
Qed.

Lemma app_run_app es1 : forall es2 app,
  run (es1 ++ es2) app
  = (fst (run es2 (fst (run es1 app))),
     snd (run es1 app) ++ snd (run es2 (fst (run es1 app)))).
Proof.
  induction es1 as [| e es1 IH]; intros es2 app.
  - cbn [List.app run fst snd]. now destruct (run es2 app).
  - cbn [List.app]. rewrite !app_run_cons, IH. cbn [fst snd].
    now rewrite app_assoc.
Qed.

Lemma app_onMotion_eq g t now app :
  core (fst (onMotion g t now app))
  = fst (Enhanced.onMotion g t now (core app)) /\
  snd (onMotion g t now app) = snd (Enhanced.onMotion g t now (core app)) /\
  heat (fst (onMotion g t now app))
  = fold_left (fun h e => addHeatDot (snd e) h)
              (snd (Enhanced.onMotion g t now (core app))) (heat app) /\
  pathLine (fst (onMotion g t now app)) = pathLine app /\
  view (fst (onMotion g t now app)) = view app /\
  userMarker (fst (onMotion g t now app)) = userMarker app /\
  accuracyCircle (fst (onMotion g t now app)) = accuracyCircle app.
Proof.
  unfold onMotion.
  destruct (Enhanced.onMotion g t now (core app)) as [st out].
  now repeat split.
Qed.

Lemma bumpTimes_app (a b : list (Emit Msg)) :
  bumpTimes (a ++ b) = bumpTimes a ++ bumpTimes b.
Proof.
  induction a as [| [n m] a IH]; [reflexivity |].
  cbn [List.app bumpTimes]. destruct m; [exact IH |].
  cbn [List.app]. now rewrite IH.
Qed.

(** What one callback sends and what it does to the time of the previous
    bump. *)
Lemma app_step_bumpTimes e app :
  (bumpTimes (snd (step e app)) = [] /\
   lastBumpTs (core (fst (step e app))) = lastBumpTs (core app)) \/
  (exists now,
     bumpTimes (snd (step e app)) = [now] /\
     (now - lastBumpTs (core app) >= minGapMs)%Z /\
     lastBumpTs (core (fst (step e app))) = now).
Proof.
  destruct e as [c ts | g t now | event data]; cbn [step].
  - left. now split.
  - destruct (app_onMotion_eq g t now app) as (-> & -> & _).
    destruct (onMotion_effect g t now (core app))
      as [[-> ->] | (dev & lat & lng & score & -> & Hgap & ->)].
    + left. now split.
    + right. exists now. now repeat split.
  - left. cbn [fst snd]. split; [reflexivity |].
    unfold onSocket.
    destruct (String.eqb event "bump"); [now destruct data |].
    destruct (String.eqb event "heat:init"); now destruct data.
Qed.

(** X16.  Whatever the session and the component it starts from, the
    bumps the jerk-based client sends are at least [minGapMs] (1500 ms)
    apart, the first one at least 1500 ms after the previous bump of the
    starting component (time 0 for [initial]). *)
Theorem jerk_bumps_spaced (es : list Event) (app : App) :
  spacedFrom 1500 (lastBumpTs (core app)) (bumpTimes (snd (run es app))).
Proof.
  revert app. induction es as [| e es IH]; intros app; [exact I |].
  rewrite app_run_cons. cbn [snd]. rewrite bumpTimes_app.
  specialize (IH (fst (step e app))).
  destruct (app_step_bumpTimes e app)
    as [[-> Hlast] | (now & -> & Hgap & Hlast)]; rewrite Hlast in IH.
  - exact IH.
  - cbn [List.app spacedFrom]. now split.
Qed.

Lemma app_socket_core event data app :
  core (onSocket event data app) = core app.
Proof.
  unfold onSocket.
  destruct (String.eqb event "bump"); [now destruct data |].
  destruct (String.eqb event "heat:init"); now destruct data.
Qed.

(** X17.  On a device whose fixes all report less than [minSpeedMps]
    (2 m/s), or no speed at all, the jerk-based client never sends a bump,
    however strong the jerk. *)
Theorem no_bump_without_speed (es : list Event) (deviceId : string) :
  Forall slowFix es ->
  bumpTimes (snd (run es (initial deviceId))) = [] /\
  Forall (fun m => fst m = "pos"%string) (snd (run es (initial deviceId))).
Proof.
  intros Hslow.
  assert (Hinv : forall es app,
             Forall slowFix es ->
             last_speed (lastPosRef (core app)) < minSpeedMps ->
             bumpTimes (snd (run es app)) = [] /\
             Forall (fun m => fst m = "pos"%string) (snd (run es app))).
  { clear. induction es as [| e es IH]; intros app Hall Hsp;
      [split; [reflexivity | constructor] |].
    inversion Hall as [| ? ? He Hes]; subst.
    rewrite app_run_cons.
    assert (Hstep : last_speed (lastPosRef (core (fst (step e app))))
                    < minSpeedMps /\
                    bumpTimes (snd (step e app)) = [] /\
                    Forall (fun m => fst m = "pos"%string)
                           (snd (step e app))).
    { destruct e as [c ts | g t now | event data]; cbn [step].
      - cbn [slowFix] in He.
        split; [exact He |]. split; [reflexivity |].
        constructor; [reflexivity | constructor].
      - destruct (app_onMotion_eq g t now app) as (-> & -> & _).
        unfold Enhanced.onMotion.
        destruct (last_lat (lastPosRef (core app)));
          [| split; [exact Hsp | split; [reflexivity | constructor]]].
        replace (ltb (last_speed (lastPosRef (core app))) minSpeedMps)
          with true by (symmetry; now apply ltb_true).
        split; [exact Hsp | split; [reflexivity | constructor]].
      - cbn [fst snd]. rewrite app_socket_core.
        split; [exact Hsp | split; [reflexivity | constructor]]. }
    destruct Hstep as (Hsp' & Hbt & Hpos).
    destruct (IH (fst (step e app)) Hes Hsp') as [Hbt' Hpos'].
    split.
    - change (snd (?a, ?b)) with b. now rewrite bumpTimes_app, Hbt, Hbt'.
    - apply Forall_app. now split. }
  apply (Hinv es (initial deviceId) Hslow).
  cbn. unfold minSpeedMps. lra.
Qed.

Lemma no_bump_without_speed_witness :
  bumpTimes
    (snd (run [Gps (mkCoords 28.6139 77.209 (Some 12) None) 1000;
               Motion (AutoTune.axisSample 40) 5000 5000;
               Gps (mkCoords 28.614 77.209 (Some 12) (Some 1.5)) 6000;
               Motion (AutoTune.axisSample 0) 5016 9000]
              (initial "dev"))) = [].
Proof.
  assert (H : Forall slowFix
                [Gps (mkCoords 28.6139 77.209 (Some 12) None) 1000;
                 Motion (AutoTune.axisSample 40) 5000 5000;
                 Gps (mkCoords 28.614 77.209 (Some 12) (Some 1.5)) 6000;
                 Motion (AutoTune.axisSample 0) 5016 9000]).
  { repeat constructor; cbn; unfold minSpeedMps; lra. }
  exact (proj1 (no_bump_without_speed _ "dev" H)).
Defined.


Lemma heatDot_bounds (lat lng score : R) :
  circle_lat (heatDot lat lng score) = lat /\
  circle_lng (heatDot lat lng score) = lng /\
  circle_radius (heatDot lat lng score) <= 100 /\
  0.25 <= circle_opacity (heatDot lat lng score) <= 0.6.
Proof.
  unfold heatDot. cbn [circle_lat circle_lng circle_radius circle_opacity].
  split; [reflexivity |]. split; [reflexivity |].
  pose proof (Rmin_l 60 (score * 10)).
  pose proof (Rmin_l 0.6 (score / 3)).
  split; [lra |]. split; [apply Rmax_l |].
  apply Rmax_lub; lra.
Qed.

Lemma heatDot_scored (lat lng score : R) :
  1 < score <= 5 ->
  50 < circle_radius (heatDot lat lng score) <= 90 /\
  / 3 < circle_opacity (heatDot lat lng score) <= 0.6.
Proof.
  intros Hs. unfold heatDot. cbn [circle_radius circle_opacity].
  assert (H1 : Rmin 60 (score * 10) = score * 10) by (apply Rmin_right; lra).
  rewrite H1.
  assert (H2 : / 3 < Rmin 0.6 (score / 3) <= 0.6).
  { split; [apply Rmin_glb_lt; lra | apply Rmin_l]. }
  split; [lra |].
  rewrite Rmax_right by lra. exact H2.
Qed.

(** X18.  Every heat dot has a radius of at most 100 m and an opacity
    between 0.25 and 0.6, whatever the score.  The dot the client draws for
    a bump it detects itself is one circle per bump sent, with a radius
    above 50 m and at most 90 m and an opacity above 1/3. *)
Theorem heat_dot_geometry (lat lng score : R) (g : option AutoTune.Gravity)
  (t : R) (now : Z) (app : App) :
  circle_radius (heatDot lat lng score) <= 100 /\
  0.25 <= circle_opacity (heatDot lat lng score) <= 0.6 /\
  exists added,
    heat (fst (onMotion g t now app)) = heat app ++ added /\
    length added = length (snd (onMotion g t now app)) /\
    Forall (fun c => 50 < circle_radius c <= 90 /\
                     / 3 < circle_opacity c <= 0.6)
           added.
Proof.
  destruct (heatDot_bounds lat lng score) as (_ & _ & Hr & Ho).
  split; [exact Hr |]. split; [exact Ho |].
  destruct (app_onMotion_eq g t now app) as (_ & -> & -> & _).
  destruct (jerk_bump_shape g t now (core app))
    as [-> | (dev & la & ln & sc & -> & Hsc)].
  - exists []. cbn. rewrite app_nil_r. repeat split. constructor.
  - exists [heatDot la ln sc]. cbn [fold_left snd addHeatDot length].
    repeat split. constructor; [| constructor].
    now apply heatDot_scored.
Qed.

Lemma deliver_bump socket (b : Msg) (sockets : list Relay.SocketId) :
  forall app,
  heat (deliver socket
          (map (fun s => Relay.mkDelivery s "bump" (Relay.One b)) sockets)
          app)
  = fold_left (fun h _ => addHeatDot b h)
      (filter (Nat.eqb socket) sockets) (heat app).
Proof.
  unfold deliver.
  induction sockets as [| s sockets IH]; intros app; [reflexivity |].
  cbn [map fold_left filter Relay.to Relay.event Relay.data].
  rewrite IH. rewrite (Nat.eqb_sym socket s).
  destruct (Nat.eqb s socket); reflexivity.
Qed.

Lemma filter_eqb_NoDup (socket : nat) (l : list nat) :
  NoDup l -> In socket l -> filter (Nat.eqb socket) l = [socket].
Proof.
  induction l as [| x l IH]; intros Hnd Hin; [destruct Hin |].
  inversion Hnd as [| ? ? Hnotin Hnd']. subst. cbn [filter].
  destruct (Nat.eqb_spec socket x) as [-> | Hne].
  - f_equal.
    assert (H : forall y, In y (filter (Nat.eqb x) l) -> False).
    { intros y Hy. apply filter_In in Hy. destruct Hy as [Hy He].
      apply Nat.eqb_eq in He. subst y. contradiction. }
    destruct (filter (Nat.eqb x) l) as [| y r]; [reflexivity |].
    exfalso. apply (H y). now left.
  - destruct Hin as [-> | Hin]; [contradiction | now apply IH].
Qed.

(** X19.  When the client is connected to the server, a bump it detects is
    drawn twice on its own map: once when it is detected, and once more
    when the server sends it back. *)
Theorem own_bump_drawn_twice (socket : Relay.SocketId)
  (rs : Relay.State Msg) (g : option AutoTune.Gravity) (t : R) (now : Z)
  (app : App) :
  NoDup (Relay.sockets rs) -> In socket (Relay.sockets rs) ->
  snd (onMotion g t now app) = [] \/
  exists b dot,
    snd (onMotion g t now app) = [("bump"%string, b)] /\
    heat (fst (onMotion g t now app)) = heat app ++ [dot] /\
    heat (deliver socket
            (snd (Relay.receive deviceIdOf socket "bump" b rs))
            (fst (onMotion g t now app)))
    = heat app ++ [dot; dot].
Proof.
  intros Hnd Hin.
  destruct (app_onMotion_eq g t now app) as (_ & Hout & Hheat & _).
  rewrite Hout.
  destruct (jerk_bump_shape g t now (core app))
    as [E | (dev & la & ln & sc & E & _)]; rewrite E in *;
    [now left | right].
  cbn [fold_left snd addHeatDot] in Hheat.
  exists (BumpMsg dev la ln sc now), (heatDot la ln sc).
  split; [reflexivity |]. split; [exact Hheat |].
  change (Relay.receive deviceIdOf socket "bump" (BumpMsg dev la ln sc now) rs)
    with (Relay.onBump socket (BumpMsg dev la ln sc now) rs).
  cbn [Relay.onBump snd]. unfold Relay.ioEmit. cbn [Relay.sockets].
  rewrite deliver_bump, Hheat.
  rewrite (filter_eqb_NoDup socket _ Hnd Hin).
  cbn [fold_left addHeatDot]. now rewrite <- app_assoc.
Qed.

End JerkSessions.

Section JerkWitness.
Import Js Enhanced EnhancedApp.

Lemma jerkMag_first_sample (st : State) :
  hpState st = mkVec 0 0 0 -> recentAccel st = mkVec 0 0 0 ->
  prev st = mkPrev 0 0 0 0 ->
  jerkMag (sampleOf (Some (AutoTune.mkGravity (Some 10) None None))) 1000 st
  = 8.
Proof.
  intros Hhp Hraw Hprev.
  unfold jerkMag, jerk, highPass, hpAlpha, sampleOf.
  rewrite Hhp, Hraw, Hprev.
  cbn [AutoTune.g_x AutoTune.g_y AutoTune.g_z orZero ax ay az
       prev_ax prev_ay prev_az prev_t].
  replace ((1000 - 0) / 1000) with 1 by field.
  replace (gtb 1 0) with true by (symmetry; apply gtb_true; lra).
  replace (0.8 * (0 + 10 - 0) - 0) with 8 by lra.
  replace (0.8 * (0 + 0 - 0) - 0) with 0 by lra.
  replace (8 / 1) with 8 by field. replace (0 / 1) with 0 by field.
  apply sqrt_axis. lra.
Qed.

(** A first sample of 10 m/s2 along one axis, one second after time 0, has
    a jerk of 8 and fires once a fix with enough speed is known. *)
Lemma first_sample_fires (c : Coords) (ts : Z) (deviceId : string) :
  orZero (speed c) >= 2 ->
  snd (onMotion (Some (AutoTune.mkGravity (Some 10) None None)) 1000 5000
         (fst (onPosition c ts (initial deviceId)))) <> [].
Proof.
  intros Hsp.
  destruct (app_onMotion_eq (Some (AutoTune.mkGravity (Some 10) None None))
              1000 5000 (fst (onPosition c ts (initial deviceId))))
    as (_ & -> & _).
  set (st := core (fst (onPosition c ts (initial deviceId)))).
  unfold Enhanced.onMotion.
  assert (Hlat : last_lat (lastPosRef st) = Some (latitude c))
    by reflexivity.
  assert (Hspeed : last_speed (lastPosRef st) = orZero (speed c))
    by reflexivity.
  assert (Hts : lastBumpTs st = 0%Z) by reflexivity.
  rewrite Hlat, Hspeed, Hts, jerkMag_first_sample by reflexivity.
  replace (ltb (orZero (speed c)) minSpeedMps) with false
    by (symmetry; apply ltb_false; unfold minSpeedMps; lra).
  replace (5000 - 0 <? minGapMs)%Z with false by reflexivity.
  replace (gtb 8 jerkThresh) with true
    by (symmetry; apply gtb_true; unfold jerkThresh; lra).
  discriminate.
Qed.

Lemma own_bump_drawn_twice_witness :
  let sample := Some (AutoTune.mkGravity (Some 10) None None) in
  let app := fst (onPosition (mkCoords 28.6139 77.209 (Some 12) (Some 5))
                             1000 (initial "dev")) in
  let rs := fst (Relay.run deviceIdOf
                   [Relay.Connect 1%nat; Relay.Connect 2%nat]
                   Relay.initial) in
  exists b dot,
    snd (onMotion sample 1000 5000 app) = [("bump"%string, b)] /\
    heat (fst (onMotion sample 1000 5000 app)) = [dot] /\
    heat (deliver 1%nat (snd (Relay.receive deviceIdOf 1%nat "bump" b rs))
            (fst (onMotion sample 1000 5000 app)))
    = [dot; dot].
Proof.
  intros sample app rs.
  assert (Hnd : NoDup (Relay.sockets rs)).
  { repeat constructor; cbn; intuition discriminate. }
  assert (Hin : In 1%nat (Relay.sockets rs)) by (now left).
  destruct (own_bump_drawn_twice 1%nat rs sample 1000 5000 app Hnd Hin)
    as [Hnone | H].
  - exfalso. revert Hnone. apply first_sample_fires. cbn. lra.
  - exact H.
Defined.

End JerkWitness.

Section JerkMap.
Import Js Enhanced EnhancedApp.

Lemma clampRadius_bounds (a : R) : 5 <= clampRadius a <= 100.
Proof.
  unfold clampRadius. split.
  - apply Rmin_glb; [apply Rmax_r | lra].
  - apply Rmin_r.
Qed.

Lemma onPosition_marker c ts app :
  markerOk app ->
  exists r,
    userMarker (fst (onPosition c ts app))
    = Some (latitude c, longitude c) /\
    accuracyCircle (fst (onPosition c ts app))
    = Some (mkCircle (latitude c) (longitude c) r 0.15) /\
    5 <= r <= 100 /\
    (truthy (accuracy c) = true -> r = clampRadius (orZero (accuracy c))) /\
    (truthy (accuracy c) = false ->
     (accuracyCircle app = None /\ r = 5) \/
     (exists c0, accuracyCircle app = Some c0 /\ r = circle_radius c0)).
Proof.
  intros Hok. cbn [onPosition fst userMarker accuracyCircle].
  unfold updateUserMarker.
  destruct Hok as [[Hm Hc] | (lat & lng & r & Hm & Hc & Hr)];
    rewrite Hm, Hc; cbn [fst snd].
  - exists (clampRadius (orZero (accuracy c))).
    split; [reflexivity |]. split; [reflexivity |].
    split; [apply clampRadius_bounds |]. split; [reflexivity |].
    intros Hfalse. left. split; [reflexivity |].
    unfold truthy in Hfalse. unfold clampRadius.
    destruct (accuracy c) as [a |]; cbn [orZero].
    + apply neqb_false in Hfalse. subst a.
      rewrite Rmax_right by lra. apply Rmin_left. lra.
    + rewrite Rmax_right by lra. apply Rmin_left. lra.
  - cbn [circle_radius circle_opacity].
    destruct (truthy (accuracy c)) eqn:Ht.
    + exists (clampRadius (orZero (accuracy c))).
      split; [reflexivity |]. split; [reflexivity |].
      split; [apply clampRadius_bounds |]. split; [reflexivity |].
      discriminate.
    + exists r. split; [reflexivity |]. split; [reflexivity |].
      split; [exact Hr |]. split; [discriminate |].
      intros _. right. eexists. split; reflexivity.
Qed.

Lemma app_step_marker e app : markerOk app -> markerOk (fst (step e app)).
Proof.
  intros Hok. destruct e as [c ts | g t now | event data]; cbn [step].
  - destruct (onPosition_marker c ts app Hok) as (r & Hm & Hc & Hr & _).
    right. now exists (latitude c), (longitude c), r.
  - destruct (app_onMotion_eq g t now app) as (_ & _ & _ & _ & _ & Hm & Hc).
    unfold markerOk. now rewrite Hm, Hc.
  - cbn [fst]. unfold onSocket.
    destruct (String.eqb event "bump"); [now destruct data |].
    destruct (String.eqb event "heat:init"); now destruct data.
Qed.

Lemma app_run_marker es : forall app,
  markerOk app -> markerOk (fst (run es app)).
Proof.
  induction es as [| e es IH]; intros app Hok; [exact Hok |].
  rewrite app_run_cons. cbn [fst]. apply IH. now apply app_step_marker.
Qed.

(** X20.  After every fix the user marker and the accuracy circle stand at
    that fix, and the circle's radius lies between 5 and 100 m: it is the
    reported accuracy clamped to that range when an accuracy other than 0
    is reported; otherwise it is 5 m on the first fix and the radius of
    the circle before on a later one. *)
Theorem user_marker_follows_fix (es : list Event) (c : Coords) (ts : Z)
  (deviceId : string) :
  let before := fst (run es (initial deviceId)) in
  let after := fst (run (es ++ [Gps c ts]) (initial deviceId)) in
  exists r,
    userMarker after = Some (latitude c, longitude c) /\
    accuracyCircle after = Some (mkCircle (latitude c) (longitude c) r 0.15) /\
    5 <= r <= 100 /\
    (truthy (accuracy c) = true -> r = clampRadius (orZero (accuracy c))) /\
    (truthy (accuracy c) = false ->
     (accuracyCircle before = None /\ r = 5) \/
     (exists c0, accuracyCircle before = Some c0 /\ r = circle_radius c0)).
Proof.
  intros before after.
  assert (Hok : markerOk before).
  { apply app_run_marker. left. now split. }
  assert (E : after = fst (onPosition c ts before)).
  { unfold after. rewrite app_run_app. cbn [fst run step].
    now destruct (onPosition c ts _). }
  rewrite E. now apply onPosition_marker.
Qed.

Lemma app_step_pathLine e app :
  pathLine (fst (step e app)) = pathLine app ++ fixes [e].
Proof.
  destruct e as [c ts | g t now | event data]; cbn [step fixes].
  - reflexivity.
  - destruct (app_onMotion_eq g t now app) as (_ & _ & _ & -> & _).
    now rewrite app_nil_r.
  - cbn [fst]. rewrite app_nil_r. unfold onSocket.
    destruct (String.eqb event "bump"); [now destruct data |].
    destruct (String.eqb event "heat:init"); now destruct data.
Qed.

Lemma fixes_cons e es : fixes (e :: es) = fixes [e] ++ fixes es.
Proof. destruct e; reflexivity. Qed.

Lemma app_step_view e app :
  view (fst (step e app))
  = match pathLine app, fixes [e] with
    | [], p :: _ => Some p
    | _, _ => view app
    end.
Proof.
  destruct e as [c ts | g t now | event data]; cbn [step fixes].
  - cbn [onPosition fst view]. rewrite length_app. cbn [length].
    destruct (pathLine app) as [| p l]; [reflexivity |].
    cbn [length]. replace (S (length l) + 1)%nat with (S (S (length l))) by lia.
    reflexivity.
  - destruct (app_onMotion_eq g t now app) as (_ & _ & _ & _ & -> & _).
    now destruct (pathLine app).
  - cbn [fst]. unfold onSocket.
    destruct (String.eqb event "bump");
      [destruct data; now destruct (pathLine app) |].
    destruct (String.eqb event "heat:init");
      destruct data; now destruct (pathLine app).
Qed.

(** X21.  The polyline of the jerk-based client records every fix, in
    order, repeated points included and without any cap: after a session
    it is the polyline before followed by the coordinates of all the fixes.
    The map view is set once, on the first fix. *)
Theorem polyline_records_every_fix (es : list Event) (app : App)
  (deviceId : string) :
  pathLine (fst (run es app)) = pathLine app ++ fixes es /\
  length (pathLine (fst (run es app)))
  = (length (pathLine app) + length (fixes es))%nat /\
  view (fst (run es (initial deviceId))) = hd_error (fixes es).
Proof.
  assert (Hline : forall es a,
             pathLine (fst (run es a)) = pathLine a ++ fixes es).
  { clear. induction es as [| e es IH]; intros a.
    - cbn. now rewrite app_nil_r.
    - rewrite app_run_cons, (fixes_cons e es). cbn [fst].
      now rewrite IH, app_step_pathLine, app_assoc. }
  split; [apply Hline |].
  split; [rewrite Hline; apply length_app |].
  assert (Hview : forall es a,
             view (fst (run es a))
             = match pathLine a, fixes es with
               | [], p :: _ => Some p
               | _, _ => view a
               end).
  { clear - Hline. induction es as [| e es IH]; intros a.
    - cbn. now destruct (pathLine a).
    - rewrite app_run_cons, (fixes_cons e es). cbn [fst].
      rewrite IH, app_step_pathLine, app_step_view.
      destruct (pathLine a) as [| p l]; destruct (fixes [e]) as [| q r];
        cbn [List.app]; reflexivity. }
  rewrite Hview. cbn [initial pathLine view].
  now destruct (fixes es).
Qed.

(** X22.  A fix is published as one ["pos"] message with the device id,
    the coordinates, the time, and the native speed or 0 when there is
    none; the same values become the last known fix.  The server stores
    that message as the live position of the device, leaves its bump store
    alone, and forwards the message to the other sockets only. *)
Theorem fix_published_and_stored (c : Coords) (ts : Z) (app : App)
  (socket : Relay.SocketId) (rs : Relay.State Msg) :
  let m := PosMsg (deviceIdRef (core app)) (latitude c) (longitude c)
                  (orZero (speed c)) ts in
  let rs' := fst (Relay.receive deviceIdOf socket "pos" m rs) in
  snd (onPosition c ts app) = [("pos"%string, m)] /\
  lastPosRef (core (fst (onPosition c ts app)))
  = mkLastPos (Some (latitude c)) (Some (longitude c)) (orZero (speed c)) ts /\
  lastBumpTs (core (fst (onPosition c ts app))) = lastBumpTs (core app) /\
  In (Some (deviceIdRef (core app)), m) (Relay.livePositions rs') /\
  Relay.bumps rs' = Relay.bumps rs /\
  map Relay.to (snd (Relay.receive deviceIdOf socket "pos" m rs))
  = filter (fun s => negb (Nat.eqb s socket)) (Relay.sockets rs).
Proof.
  cbv zeta.
  split; [reflexivity |]. split; [reflexivity |]. split; [reflexivity |].
  change (Relay.receive deviceIdOf socket "pos" ?m rs)
    with (Relay.onPos deviceIdOf socket m rs).
  split; [| split; [reflexivity |]].
  - cbn [Relay.onPos fst Relay.livePositions].
    apply (mapSet_In (Some (deviceIdRef (core app)))).
  - apply onPos_recipients.
Qed.

End JerkMap.
